(** * file_organizer: a shallow embedding of [organizer.py]

    The development follows the three pieces of the program:
    - the category resolver ([get_category_for_extension] and the index
      that [organize_files] pre-populates),
    - the collision resolver ([handle_collision]),
    - the directory scan of [organize_files].

    Python strings are modelled as [string] (case folding is the ASCII one),
    [pathlib] paths as lists of components, dictionaries whose iteration
    order matters as association lists, the extension cache as a [gmap],
    and the operating system as an interface ([FileSystem]) whose mutating
    calls may raise. *)

From Stdlib Require Import Ascii String.
From stdpp Require Import base gmap strings list pretty.

Local Open Scope string_scope.
Local Open Scope list_scope.

(** ** Module constants (lines 9-12 of organizer.py) *)

Definition CONFIG_FILE_NAME : string := "file_types.json".
Definition DEFAULT_OTHERS_FOLDER : string := "Others".
Definition LOG_FILE_NAME : string := "organizer.log".
(** [Path(__file__).name]: the file name the script is shipped under. *)
Definition SCRIPT_NAME : string := "organizer.py".

(** ** Strings *)

(** [str.lower], restricted to the ASCII letters. *)
Definition ascii_lower (c : ascii) : ascii :=
  let n := nat_of_ascii c in
  if (65 <=? n)%nat && (n <=? 90)%nat then ascii_of_nat (n + 32) else c.

Fixpoint lower (s : string) : string :=
  match s with
  | EmptyString => EmptyString
  | String c s' => String (ascii_lower c) (lower s')
  end.

(** [name.rfind('.')]: position of the last dot, if any. *)
Fixpoint rfind_dot (s : string) : option nat :=
  match s with
  | EmptyString => None
  | String c s' =>
      match rfind_dot s' with
      | Some i => Some (S i)
      | None => if Ascii.eqb c "." then Some 0 else None
      end
  end.

(** ** Paths

    A [Path] is the list of its components, root first.  [p / s] appends
    one component. *)

Definition Path : Type := list string.

Definition joinpath (p : Path) (s : string) : Path := p ++ [s].

Definition path_name (p : Path) : string := List.last p "".
Definition path_parent (p : Path) : Path := List.removelast p.

(** [PurePath.suffix] and [PurePath.stem]: the name is cut at its last dot
    unless that dot is the first or the last character. *)
Definition has_suffix_at (nm : string) (i : nat) : bool :=
  (0 <? i)%nat && (i <? String.length nm - 1)%nat.

Definition name_suffix (nm : string) : string :=
  match rfind_dot nm with
  | Some i =>
      if has_suffix_at nm i then substring i (String.length nm - i) nm else ""
  | None => ""
  end.

Definition name_stem (nm : string) : string :=
  match rfind_dot nm with
  | Some i => if has_suffix_at nm i then substring 0 i nm else nm
  | None => nm
  end.

Definition path_suffix (p : Path) : string := name_suffix (path_name p).
Definition path_stem (p : Path) : string := name_stem (path_name p).

(** ** Category resolver *)

(** The configuration: category name to list of extensions, in the
    iteration order of the dictionary. *)
Definition CategoryMap : Type := list (string * list string).

(** Lines 112-114: the index [organize_files] fills before the scan. *)
Definition prepopulate_category (category_name : string)
    (extensions_list : list string) (cache : gmap string string)
  : gmap string string :=
  foldl (fun c ext => <[lower ext := category_name]> c) cache extensions_list.

Definition prepopulate (file_types_map : CategoryMap) : gmap string string :=
  foldl (fun c entry => prepopulate_category entry.1 entry.2 c)
        ∅ file_types_map.

(** Lines 68-72: the index [get_category_for_extension] builds on demand. *)
Definition build_ext (category : string) (cache : gmap string string)
    (ext : string) : gmap string string :=
  let normalized_ext := lower ext in
  match cache !! normalized_ext with
  | Some _ => cache
  | None => <[normalized_ext := category]> cache
  end.

Definition build_cache (file_types_map : CategoryMap)
    (cache : gmap string string) : gmap string string :=
  foldl (fun c entry => foldl (build_ext entry.1) c entry.2)
        cache file_types_map.

(** Lines 54-76.  The cache is a dictionary shared with the caller, so the
    function returns it next to the category. *)
Definition get_category_for_extension (extension : string)
    (file_types_map : CategoryMap) (extension_to_category_cache : gmap string string)
  : string * gmap string string :=
  if String.eqb extension "" then
    (DEFAULT_OTHERS_FOLDER, extension_to_category_cache)
  else
    match extension_to_category_cache !! extension with
    | Some category => (category, extension_to_category_cache)
    | None =>
        let cache' :=
          if bool_decide (extension_to_category_cache = ∅)
          then build_cache file_types_map extension_to_category_cache
          else extension_to_category_cache in
        (default DEFAULT_OTHERS_FOLDER (cache' !! lower extension), cache')
    end.

(** The category a file with suffix [sfx] gets inside [organize_files]:
    the suffix is lowered (line 133) and looked up in the pre-populated
    index (lines 135-139). *)
Definition resolve (file_types_map : CategoryMap) (sfx : string) : string :=
  (get_category_for_extension (lower sfx) file_types_map
     (prepopulate file_types_map)).1.

(** The same lookup against an index built by the resolver itself. *)
Definition resolve_lazy (file_types_map : CategoryMap) (extension : string)
  : string :=
  (get_category_for_extension extension file_types_map ∅).1.

(** ** The operating system

    Exception classes, as far as the [except] clauses of the program tell
    them apart: [except OSError] catches the first only, [except Exception]
    catches both. *)
Inductive exn : Type :=
| OSError
| OtherException.

Global Instance exn_eq_dec : EqDecision exn.
Proof. solve_decision. Defined.

Definition is_OSError (e : exn) : bool :=
  match e with OSError => true | OtherException => false end.

(** What the program asks of the file system.  [existing w] is the set of
    paths for which [Path.exists()] holds in [w]; [iterdir w d] lists the
    names of the entries of [d]; [os_mkdir] is
    [mkdir(parents=True, exist_ok=True)] and [os_move] is [shutil.move]:
    both return the file system they leave behind and the exception they
    raise, if any. *)
Class FileSystem (World : Type) : Type := {
  existing : World -> gset Path;
  is_dir : World -> Path -> bool;
  is_file : World -> Path -> bool;
  iterdir : World -> Path -> list string;
  os_mkdir : World -> Path -> World * option exn;
  os_move : World -> Path -> Path -> World * option exn
}.

Definition path_exists {World} `{FileSystem World} (w : World) (p : Path) : bool :=
  bool_decide (p ∈ existing w).

(** ** Collision resolver (lines 78-96) *)

(** [parent / f"{stem}_{counter}{suffix}"] *)
Definition candidate (destination_path : Path) (counter : nat) : Path :=
  joinpath (path_parent destination_path)
    (path_stem destination_path +:+ "_" +:+ pretty counter
       +:+ path_suffix destination_path).

(** The [while] loop of lines 92-96, run for at most [fuel] tests of
    [new_path.exists()]; [None] when the fuel does not suffice. *)
Fixpoint collision_loop (ex : Path -> bool) (fuel : nat)
    (destination_path : Path) (counter : nat) : option Path :=
  match fuel with
  | O => None
  | S fuel' =>
      let new_path := candidate destination_path counter in
      if ex new_path
      then collision_loop ex fuel' destination_path (S counter)
      else Some new_path
  end.

Definition handle_collision_fuel (ex : Path -> bool) (fuel : nat)
    (destination_path : Path) : option Path :=
  if negb (ex destination_path) then Some destination_path
  else collision_loop ex fuel destination_path 1.

(** On a file system the loop needs at most one test more than there are
    existing paths ([handle_collision_fuel_enough] below), so that the
    [default] is never used. *)
Definition handle_collision {World} `{FileSystem World} (w : World)
    (destination_path : Path) : Path :=
  default destination_path
    (handle_collision_fuel (path_exists w) (S (size (existing w)))
       destination_path).

(** ** Directory organizer (lines 99-184) *)

Inductive level : Type := ERROR | INFO | DEBUG.

(** One constructor per [logger] call of [organize_files], with the values
    the message is formatted from. *)
Inductive message : Type :=
| MsgTargetNotFound (target : Path)
| MsgScanning (target : Path) (dry_run : bool)
| MsgSkipping (name : string)
| MsgMkdirFailed (folder : Path) (e : exn)
| MsgDryRunCollision (name folder_name resolved_name : string)
| MsgDryRun (name folder_name target_name : string)
| MsgMoved (name folder_name final_name : string)
| MsgMoveFailed (name : string) (e : exn)
| MsgSkippingDirectory (name : string)
| MsgSeparator
| MsgComplete (dry_run : bool)
| MsgProcessed (files_moved : nat)
| MsgSkipped (files_skipped : nat)
| MsgLogSaved.

(** What a run does, in order: the messages it logs and the mutating calls
    it makes. *)
Inductive event : Type :=
| Log (l : level) (m : message)
| CallMkdir (folder : Path)
| CallMove (src dst : Path).

Global Instance level_eq_dec : EqDecision level.
Proof. solve_decision. Defined.

Global Instance message_eq_dec : EqDecision message.
Proof. solve_decision. Defined.

Global Instance event_eq_dec : EqDecision event.
Proof. solve_decision. Defined.

Definition is_mutation (ev : event) : bool :=
  match ev with
  | Log _ _ => false
  | CallMkdir _ | CallMove _ _ => true
  end.

(** A call either returns or raises; both leave a state behind. *)
Inductive outcome (A : Type) : Type :=
| Returns (a : A)
| Raises (e : exn) (a : A).
Arguments Returns {A} a.
Arguments Raises {A} e a.

Definition known_category_folders (file_types_map : CategoryMap) : gset string :=
  list_to_set (file_types_map.*1) ∪ {[DEFAULT_OTHERS_FOLDER]}.

Definition is_protected_name (name : string) : bool :=
  String.eqb name SCRIPT_NAME || String.eqb name CONFIG_FILE_NAME
  || String.eqb name LOG_FILE_NAME.

Section Organizer.
Context {World : Type} `{FileSystem World}.

(** The file system, what happened so far, and the local variables of
    [organize_files] that the loop updates. *)
Record State : Type := mkState {
  fs : World;
  trace : list event;
  files_moved : nat;
  files_skipped : nat;
  extension_to_category_cache : gmap string string
}.

Definition init_state (w : World) : State :=
  mkState w [] 0 0 ∅.

Definition emit (ev : event) (st : State) : State :=
  mkState (fs st) (trace st ++ [ev]) (files_moved st) (files_skipped st)
    (extension_to_category_cache st).

Definition log (l : level) (m : message) (st : State) : State :=
  emit (Log l m) st.

Definition set_fs (w : World) (st : State) : State :=
  mkState w (trace st) (files_moved st) (files_skipped st)
    (extension_to_category_cache st).

Definition set_cache (c : gmap string string) (st : State) : State :=
  mkState (fs st) (trace st) (files_moved st) (files_skipped st) c.

Definition incr_moved (st : State) : State :=
  mkState (fs st) (trace st) (S (files_moved st)) (files_skipped st)
    (extension_to_category_cache st).

Definition incr_skipped (st : State) : State :=
  mkState (fs st) (trace st) (files_moved st) (S (files_skipped st))
    (extension_to_category_cache st).

(** The skip test of lines 125-128. *)
Definition is_skipped (known : gset string) (w : World) (item_path : Path)
  : bool :=
  is_protected_name (path_name item_path)
  || (is_dir w item_path && bool_decide (path_name item_path ∈ known)).

(** Lines 144-173, real mode: create the folder, resolve the collision,
    move. *)
Definition move_file (item_path destination_folder_path
    destination_file_path : Path) (st : State) : outcome State :=
  match os_mkdir (fs st) destination_folder_path with
  | (w1, Some e) =>
      let st1 := set_fs w1 (emit (CallMkdir destination_folder_path) st) in
      if is_OSError e then
        Returns (incr_skipped
                   (log ERROR (MsgMkdirFailed destination_folder_path e) st1))
      else Raises e st1
  | (w1, None) =>
      let st1 := set_fs w1 (emit (CallMkdir destination_folder_path) st) in
      let final_destination_file_path :=
        handle_collision w1 destination_file_path in
      let st2 := emit (CallMove item_path final_destination_file_path) st1 in
      match os_move w1 item_path final_destination_file_path with
      | (w2, None) =>
          Returns (incr_moved
            (log INFO (MsgMoved (path_name item_path)
                         (path_name destination_folder_path)
                         (path_name final_destination_file_path))
               (set_fs w2 st2)))
      | (w2, Some e) =>
          Returns (incr_skipped
            (log ERROR (MsgMoveFailed (path_name item_path) e)
               (set_fs w2 st2)))
      end
  end.

(** Lines 153-164, dry run: report where the file would go. *)
Definition preview_file (item_path destination_folder_path
    destination_file_path : Path) (st : State) : State :=
  if path_exists (fs st) destination_file_path then
    let resolved_collision_path :=
      handle_collision (fs st) destination_file_path in
    incr_moved
      (log INFO (MsgDryRunCollision (path_name item_path)
                   (path_name destination_folder_path)
                   (path_name resolved_collision_path)) st)
  else
    incr_moved
      (log INFO (MsgDryRun (path_name item_path)
                   (path_name destination_folder_path)
                   (path_name item_path)) st).

(** Lines 132-173: a regular file that was not skipped. *)
Definition organize_file (target_dir_path : Path)
    (file_types_map : CategoryMap) (dry_run : bool) (item_path : Path)
    (st : State) : outcome State :=
  let file_extension := lower (path_suffix item_path) in
  let '(category_name, cache') :=
    get_category_for_extension file_extension file_types_map
      (extension_to_category_cache st) in
  let st := set_cache cache' st in
  let destination_folder_path := joinpath target_dir_path category_name in
  let destination_file_path :=
    joinpath destination_folder_path (path_name item_path) in
  if dry_run
  then Returns (preview_file item_path destination_folder_path
                  destination_file_path st)
  else move_file item_path destination_folder_path destination_file_path st.

(** The body of the loop of line 123, for the entry [name]. *)
Definition process_item (target_dir_path : Path)
    (file_types_map : CategoryMap) (known : gset string) (dry_run : bool)
    (name : string) (st : State) : outcome State :=
  let item_path := joinpath target_dir_path name in
  if is_skipped known (fs st) item_path then
    Returns (log DEBUG (MsgSkipping (path_name item_path)) st)
  else if is_file (fs st) item_path then
    organize_file target_dir_path file_types_map dry_run item_path st
  else if is_dir (fs st) item_path then
    Returns (log DEBUG (MsgSkippingDirectory (path_name item_path)) st)
  else Returns st.

(** The loop: an exception that leaves the body ends it. *)
Fixpoint scan (target_dir_path : Path) (file_types_map : CategoryMap)
    (known : gset string) (dry_run : bool) (items : list string)
    (st : State) : outcome State :=
  match items with
  | [] => Returns st
  | name :: rest =>
      match process_item target_dir_path file_types_map known dry_run
              name st with
      | Returns st' =>
          scan target_dir_path file_types_map known dry_run rest st'
      | Raises e st' => Raises e st'
      end
  end.

(** Lines 179-184. *)
Definition report (dry_run : bool) (st : State) : State :=
  let st := log INFO MsgSeparator st in
  let st := log INFO (MsgComplete dry_run) st in
  let st := log INFO (MsgProcessed (files_moved st)) st in
  let st := log INFO (MsgSkipped (files_skipped st)) st in
  if negb dry_run && (0 <? files_moved st)%nat
  then log INFO MsgLogSaved st
  else st.

(** [organize_files], started on the file system [w].  The counters of
    the returned state are the local variables [files_moved] and
    [files_skipped]; they read 0 as long as lines 120-121 were not
    reached. *)
Definition organize_files (target_dir_path : Path)
    (file_types_map : CategoryMap) (dry_run : bool) (w : World)
  : outcome State :=
  let st := init_state w in
  if negb (is_dir w target_dir_path) then
    Returns (log ERROR (MsgTargetNotFound target_dir_path) st)
  else
    let st := log INFO (MsgScanning target_dir_path dry_run) st in
    let st := set_cache (prepopulate file_types_map) st in
    let known := known_category_folders file_types_map in
    match scan target_dir_path file_types_map known dry_run
            (iterdir w target_dir_path) st with
    | Returns st' => Returns (report dry_run st')
    | Raises e st' => Raises e st'
    end.

Definition final_state (o : outcome State) : State :=
  match o with Returns st => st | Raises _ st => st end.

End Organizer.

(** ** A concrete file system

    A tree of named entries, with the outcomes that [pathlib] and [shutil]
    document for [mkdir(parents=True, exist_ok=True)] and [move].  It is
    used to run the program on examples. *)
Module Posix.

Inductive kind : Type := RegularFile | Directory | Special.

Global Instance kind_eq_dec : EqDecision kind.
Proof. solve_decision. Defined.

(** The top of the tree, [[]], is a directory and has no entry. *)
Definition holds_dir (t : gmap (list string) kind) (p : list string) : bool :=
  match p with
  | [] => true
  | _ => bool_decide (t !! p = Some Directory)
  end.

Definition holds_file (t : gmap (list string) kind) (p : list string) : bool :=
  bool_decide (t !! p = Some RegularFile).

Definition children (t : gmap (list string) kind) (d : list string)
  : list string :=
  omap (fun q : list string =>
          if bool_decide (q <> [] /\ path_parent q = d)
          then Some (path_name q) else None)
       (elements (dom t)).

(** [mkdir -p]: walk down the components, creating the missing ones; an
    entry that is in the way and is not a directory is an error. *)
Fixpoint mkdir_from (t : gmap (list string) kind) (above todo : list string)
  : gmap (list string) kind * option exn :=
  match todo with
  | [] => (t, None)
  | c :: todo' =>
      let q := above ++ [c] in
      match t !! q with
      | Some Directory => mkdir_from t q todo'
      | Some _ => (t, Some OSError)
      | None => mkdir_from (<[q := Directory]> t) q todo'
      end
  end.

Definition mkdir (t : gmap (list string) kind) (p : list string)
  : gmap (list string) kind * option exn :=
  mkdir_from t [] p.

(** [os.rename]: the entry and what is below it change their prefix. *)
Definition rekey (src dst q : list string) : list string :=
  if bool_decide (src `prefix_of` q) then dst ++ drop (length src) q else q.

Definition rename (t : gmap (list string) kind) (src dst : list string)
  : gmap (list string) kind * option exn :=
  if holds_dir t (path_parent dst) then
    (list_to_map (prod_map (rekey src dst) id <$> map_to_list (delete dst t)),
     None)
  else (t, Some OSError).

(** [shutil.move]: into [dst] when that is a directory, onto it
    otherwise. *)
Definition move (t : gmap (list string) kind) (src dst : list string)
  : gmap (list string) kind * option exn :=
  match t !! src with
  | None => (t, Some OSError)
  | Some _ =>
      if bool_decide (t !! dst = Some Directory) then
        let real_dst := joinpath dst (path_name src) in
        if bool_decide (real_dst ∈ dom t) then (t, Some OSError)
        else rename t src real_dst
      else rename t src dst
  end.

Global Instance posix_fs : FileSystem (gmap (list string) kind) := {|
  existing t := dom t;
  is_dir := holds_dir;
  is_file := holds_file;
  iterdir := children;
  os_mkdir := mkdir;
  os_move := move
|}.

Definition tree_of (l : list (list string * kind)) : gmap (list string) kind :=
  list_to_map l.

End Posix.

(** ** A file system that checks for NUL characters

    [os.mkdir] rejects a path with an embedded NUL character with a
    [ValueError], which is not an [OSError]; the rest is as in [Posix]. *)
Module Checked.

Fixpoint has_nul (s : string) : bool :=
  match s with
  | EmptyString => false
  | String c s' => Ascii.eqb c Ascii.zero || has_nul s'
  end.

Definition mkdir (t : gmap (list string) Posix.kind) (p : list string)
  : gmap (list string) Posix.kind * option exn :=
  if existsb has_nul p then (t, Some OtherException) else Posix.mkdir t p.

Definition checked_fs : FileSystem (gmap (list string) Posix.kind) := {|
  existing t := dom t;
  is_dir := Posix.holds_dir;
  is_file := Posix.holds_file;
  iterdir := Posix.children;
  os_mkdir := mkdir;
  os_move := Posix.move
|}.

End Checked.

(** ** Vocabulary of the statements *)

(** The extensions of the configuration, as the index sees them. *)
Definition normalized_extensions (file_types_map : CategoryMap) : list string :=
  lower <$> concat (file_types_map.*2).

(** The (normalized extension, category) pairs in iteration order. *)
Definition index_entries (file_types_map : CategoryMap)
  : list (string * string) :=
  file_types_map ≫= fun entry => (fun ext => (lower ext, entry.1)) <$> entry.2.

(** One assignment of line 114, and one guarded assignment of lines 71-72,
    on an entry of [index_entries]. *)
Definition insert_entry (c : gmap string string) (kv : string * string)
  : gmap string string :=
  <[kv.1 := kv.2]> c.

Definition insert_new_entry (c : gmap string string) (kv : string * string)
  : gmap string string :=
  match c !! kv.1 with
  | Some _ => c
  | None => <[kv.1 := kv.2]> c
  end.

(** Where [organize_files] sends the regular file [name] when it meets it
    in state [st]: the folder of the category of its lowered suffix. *)
Definition destination_folder {World : Type} (target_dir_path : Path)
    (file_types_map : CategoryMap) (st : @State World) (name : string) : Path :=
  joinpath target_dir_path
    (get_category_for_extension (lower (name_suffix name)) file_types_map
       (extension_to_category_cache st)).1.

(** The names line 125-127 compare with. *)
Definition protected_names : list string :=
  [SCRIPT_NAME; CONFIG_FILE_NAME; LOG_FILE_NAME].

(** A [CallMove] whose source bears a protected name. *)
Definition moves_protected (ev : event) : bool :=
  match ev with
  | CallMove src _ => is_protected_name (path_name src)
  | _ => false
  end.

(** The messages that go with [files_moved += 1] (lines 159, 164, 168) and
    with [files_skipped += 1] (lines 148, 170). *)
Definition is_move_report (ev : event) : bool :=
  match ev with
  | Log INFO (MsgMoved _ _ _) | Log INFO (MsgDryRun _ _ _)
  | Log INFO (MsgDryRunCollision _ _ _) => true
  | _ => false
  end.

Definition is_skip_report (ev : event) : bool :=
  match ev with
  | Log ERROR (MsgMkdirFailed _ _) | Log ERROR (MsgMoveFailed _ _) => true
  | _ => false
  end.

(** The file name a dry-run message announces as the target. *)
Definition announced_name (ev : event) : option string :=
  match ev with
  | Log INFO (MsgDryRun _ _ target_name) => Some target_name
  | Log INFO (MsgDryRunCollision _ _ resolved_name) => Some resolved_name
  | _ => None
  end.

(** An entry the loop takes up: not skipped by lines 125-128 and a regular
    file (line 132), on the file system [w]. *)
Definition is_eligible {World : Type} `{FileSystem World}
    (known : gset string) (w : World) (target_dir_path : Path)
    (name : string) : bool :=
  negb (is_skipped known w (joinpath target_dir_path name))
  && is_file w (joinpath target_dir_path name).

(** Configurations and file systems used in examples. *)
Definition nul_category : CategoryMap :=
  [(String "a" (String Ascii.zero "b"), [".txt"])].

Definition notes_tree : gmap (list string) Posix.kind :=
  Posix.tree_of [(["t"], Posix.Directory);
                 (["t"; "notes.txt"], Posix.RegularFile)].

Definition two_categories : CategoryMap :=
  [("Images", [".jpg"]); ("Documents", [".txt"])].

Definition overlapping : CategoryMap :=
  [("Archives", [".x"]); ("Binaries", [".x"])].

Definition images_only : CategoryMap := [("Images", [".png"])].

(** Scenario trees: a directory [t] to organize. *)
Definition mixed_tree : gmap (list string) Posix.kind :=
  Posix.tree_of [(["t"], Posix.Directory);
                 (["t"; "photo.JPG"], Posix.RegularFile);
                 (["t"; "notes.txt"], Posix.RegularFile);
                 (["t"; "archive"], Posix.Directory)].

Definition collision_tree : gmap (list string) Posix.kind :=
  Posix.tree_of [(["t"], Posix.Directory);
                 (["t"; "image.png"], Posix.RegularFile);
                 (["t"; "Images"], Posix.Directory);
                 (["t"; "Images"; "image.png"], Posix.RegularFile)].

Definition others_tree : gmap (list string) Posix.kind :=
  Posix.tree_of [(["t"], Posix.Directory);
                 (["t"; "Others"], Posix.RegularFile)].

Definition images_file_tree : gmap (list string) Posix.kind :=
  Posix.tree_of [(["t"], Posix.Directory);
                 (["t"; "Images"], Posix.RegularFile)].

Definition images_file_tree_with_folder : gmap (list string) Posix.kind :=
  Posix.tree_of [(["t"], Posix.Directory);
                 (["t"; "Images"], Posix.RegularFile);
                 (["t"; "Others"], Posix.Directory)].

Definition images_file_tree_moved : gmap (list string) Posix.kind :=
  Posix.tree_of [(["t"], Posix.Directory);
                 (["t"; "Others"], Posix.Directory);
                 (["t"; "Others"; "Images"], Posix.RegularFile)].

Definition protected_tree : gmap (list string) Posix.kind :=
  Posix.tree_of [(["t"], Posix.Directory);
                 (["t"; "organizer.py"], Posix.RegularFile);
                 (["t"; "Images"], Posix.Directory)].

Definition empty_tree : gmap (list string) Posix.kind := ∅.

(* ===================================================================== *)
(** * Properties *)
(* ===================================================================== *)

(** ** Strings and paths *)

Lemma ascii_lower_idem c : ascii_lower (ascii_lower c) = ascii_lower c.
Proof. destruct c as [[] [] [] [] [] [] [] []]; reflexivity. Qed.

Lemma lower_idem s : lower (lower s) = lower s.
Proof. induction s as [|c s IH]; simpl; [done|]. by rewrite ascii_lower_idem, IH. Qed.

Lemma lower_empty s : lower s = "" <-> s = "".
Proof. destruct s; simpl; split; congruence. Qed.

Lemma path_name_joinpath p n : path_name (joinpath p n) = n.
Proof. unfold path_name, joinpath. apply List.last_last. Qed.

Lemma path_parent_joinpath p n : path_parent (joinpath p n) = p.
Proof. unfold path_parent, joinpath. apply List.removelast_last. Qed.

Lemma joinpath_inj p n1 n2 : joinpath p n1 = joinpath p n2 -> n1 = n2.
Proof. unfold joinpath. intros Heq. apply app_inv_head in Heq. congruence. Qed.

Lemma string_length_app s t : String.length (s +:+ t) = String.length s + String.length t.
Proof. induction s as [|c s IH]; simpl; [done|]. by rewrite IH. Qed.

Lemma string_app_inv_tail s1 s2 t : s1 +:+ t = s2 +:+ t -> s1 = s2.
Proof.
  revert s2. induction s1 as [|c s1 IH]; intros [|d s2] Heq.
  - done.
  - apply (f_equal String.length) in Heq.
    rewrite !string_length_app in Heq. simpl in Heq. lia.
  - apply (f_equal String.length) in Heq.
    rewrite !string_length_app in Heq. simpl in Heq. lia.
  - change (String c (s1 +:+ t) = String d (s2 +:+ t)) in Heq.
    injection Heq as -> Heq. f_equal. by apply IH.
Qed.

Example suffix_examples :
  name_suffix "photo.tar.JPG" = ".JPG" /\ name_stem "photo.tar.JPG" = "photo.tar"
  /\ name_suffix ".bashrc" = "" /\ name_stem ".bashrc" = ".bashrc"
  /\ name_suffix "data." = "" /\ name_stem "data" = "data".
Proof. vm_compute. tauto. Qed.

Example candidate_example :
  candidate ["t"; "Images"; "image.png"] 12 = ["t"; "Images"; "image_12.png"].
Proof. vm_compute. reflexivity. Qed.

(** The candidates of one destination are pairwise distinct. *)
Lemma candidate_inj p n m : candidate p n = candidate p m -> n = m.
Proof.
  unfold candidate. intros Heq.
  apply joinpath_inj in Heq.
  apply (inj (String.app _)) in Heq.
  apply (inj (String.app _)) in Heq.
  apply string_app_inv_tail in Heq.
  by apply (inj pretty) in Heq.
Qed.

(** ** The two indexes *)

Lemma index_entries_cons cat exts m :
  index_entries ((cat, exts) :: m)
  = ((fun ext => (lower ext, cat)) <$> exts) ++ index_entries m.
Proof. reflexivity. Qed.

Lemma index_entries_keys m : (index_entries m).*1 = normalized_extensions m.
Proof.
  unfold normalized_extensions.
  induction m as [|[cat exts] m IH]; [done|].
  rewrite index_entries_cons, fmap_app, IH. cbn [fmap list_fmap snd concat].
  rewrite (fmap_app lower). f_equal.
  rewrite <- list_fmap_compose. by apply list_fmap_ext.
Qed.

Lemma prepopulate_category_entries cat exts c :
  prepopulate_category cat exts c
  = foldl insert_entry c ((fun ext => (lower ext, cat)) <$> exts).
Proof.
  unfold prepopulate_category. revert c.
  induction exts as [|e exts IH]; intros c; simpl; [done|]. apply IH.
Qed.

Lemma prepopulate_entries m :
  prepopulate m = foldl insert_entry ∅ (index_entries m).
Proof.
  unfold prepopulate. generalize (∅ : gmap string string).
  induction m as [|[cat exts] m IH]; intros c; [done|].
  rewrite index_entries_cons, foldl_app, <- IH. simpl.
  by rewrite prepopulate_category_entries.
Qed.

Lemma build_ext_entries cat exts c :
  foldl (build_ext cat) c exts
  = foldl insert_new_entry c ((fun ext => (lower ext, cat)) <$> exts).
Proof.
  revert c. induction exts as [|e exts IH]; intros c; simpl; [done|]. apply IH.
Qed.

Lemma build_cache_entries m c :
  build_cache m c = foldl insert_new_entry c (index_entries m).
Proof.
  unfold build_cache. revert c.
  induction m as [|[cat exts] m IH]; intros c; [done|].
  rewrite index_entries_cons, foldl_app, <- IH. simpl.
  by rewrite build_ext_entries.
Qed.

Section Folds.
Implicit Types (c : gmap string string) (l : list (string * string)).

Lemma insert_entries_other c l k :
  k ∉ l.*1 -> foldl insert_entry c l !! k = c !! k.
Proof.
  revert c. induction l as [|[k' v'] l IH]; intros c Hk; simpl; [done|].
  rewrite fmap_cons, not_elem_of_cons in Hk. destruct Hk as [Hne Hk].
  rewrite IH by done. unfold insert_entry. simpl in *.
  by rewrite lookup_insert_ne.
Qed.

(** Plain assignment: the last entry for a key stays. *)
Lemma insert_entries_last c l1 l2 k v :
  k ∉ l2.*1 -> foldl insert_entry c (l1 ++ (k, v) :: l2) !! k = Some v.
Proof.
  intros Hk. rewrite foldl_app. simpl. rewrite insert_entries_other by done.
  unfold insert_entry. simpl. apply lookup_insert_eq.
Qed.

Lemma insert_entries_Some c l k v :
  foldl insert_entry c l !! k = Some v -> c !! k = Some v \/ (k, v) ∈ l.
Proof.
  revert c. induction l as [|[k' v'] l IH]; intros c Hl; simpl in *; [by left|].
  apply IH in Hl as [Hl|Hl]; [|right; apply elem_of_cons; by right].
  unfold insert_entry in Hl. simpl in Hl.
  destruct (decide (k' = k)) as [->|Hne].
  - rewrite lookup_insert_eq in Hl. injection Hl as ->. right.
    apply elem_of_cons. by left.
  - rewrite lookup_insert_ne in Hl by done. by left.
Qed.

Lemma insert_new_entries_other c l k :
  k ∉ l.*1 -> foldl insert_new_entry c l !! k = c !! k.
Proof.
  revert c. induction l as [|[k' v'] l IH]; intros c Hk; simpl; [done|].
  rewrite fmap_cons, not_elem_of_cons in Hk. destruct Hk as [Hne Hk].
  rewrite IH by done. unfold insert_new_entry. simpl in *.
  destruct (c !! k'); [done|]. by rewrite lookup_insert_ne.
Qed.

Lemma insert_new_entries_keep c l k v :
  c !! k = Some v -> foldl insert_new_entry c l !! k = Some v.
Proof.
  revert c. induction l as [|[k' v'] l IH]; intros c Hk; simpl; [done|].
  apply IH. unfold insert_new_entry. simpl.
  destruct (c !! k') eqn:Hk'; [done|].
  rewrite lookup_insert_ne; [done|]. intros ->. congruence.
Qed.

(** Guarded assignment: the first entry for a key stays. *)
Lemma insert_new_entries_first c l1 l2 k v :
  c !! k = None -> k ∉ l1.*1 ->
  foldl insert_new_entry c (l1 ++ (k, v) :: l2) !! k = Some v.
Proof.
  intros Hc Hk. rewrite foldl_app. simpl. apply insert_new_entries_keep.
  unfold insert_new_entry at 1. simpl.
  rewrite insert_new_entries_other, Hc by done. apply lookup_insert_eq.
Qed.
End Folds.

Lemma prepopulate_absent m k :
  k ∉ normalized_extensions m -> prepopulate m !! k = None.
Proof.
  intros Hk. rewrite prepopulate_entries, insert_entries_other; [done|].
  by rewrite index_entries_keys.
Qed.

Lemma build_cache_absent m k :
  k ∉ normalized_extensions m -> build_cache m ∅ !! k = None.
Proof.
  intros Hk. rewrite build_cache_entries, insert_new_entries_other; [done|].
  by rewrite index_entries_keys.
Qed.

(** The keys of the pre-populated index are lower-case. *)
Lemma prepopulate_key_normalized m k v :
  prepopulate m !! k = Some v -> k ∈ normalized_extensions m /\ lower k = k.
Proof.
  rewrite prepopulate_entries. intros Hk.
  apply insert_entries_Some in Hk as [Hk|Hk]; [done|].
  assert (k ∈ normalized_extensions m) as Hin.
  { rewrite <- index_entries_keys. apply list_elem_of_fmap. by exists (k, v). }
  split; [done|]. unfold normalized_extensions in Hin.
  apply list_elem_of_fmap in Hin as (e & -> & _). apply lower_idem.
Qed.

Lemma get_category_nonempty ext m c :
  ext <> "" ->
  get_category_for_extension ext m c
  = match c !! ext with
    | Some category => (category, c)
    | None =>
        let c' := if bool_decide (c = ∅) then build_cache m c else c in
        (default DEFAULT_OTHERS_FOLDER (c' !! lower ext), c')
    end.
Proof.
  intros Hne. unfold get_category_for_extension.
  by destruct (String.eqb_spec ext "").
Qed.

(** Inside [organize_files] the last category listing an extension gets
    it. *)
Lemma resolve_last_wins m l1 l2 E C :
  E <> "" -> index_entries m = l1 ++ (lower E, C) :: l2 -> lower E ∉ l2.*1 ->
  resolve m E = C.
Proof.
  intros HE Hm Hlast. unfold resolve.
  rewrite get_category_nonempty by (by rewrite lower_empty).
  rewrite prepopulate_entries, Hm, insert_entries_last by done. done.
Qed.

(** With an index built by [get_category_for_extension] the first one
    does. *)
Lemma resolve_lazy_first_wins m l1 l2 E C :
  E <> "" -> index_entries m = l1 ++ (lower E, C) :: l2 -> lower E ∉ l1.*1 ->
  resolve_lazy m E = C.
Proof.
  intros HE Hm Hfirst. unfold resolve_lazy.
  rewrite get_category_nonempty by done. rewrite lookup_empty.
  rewrite bool_decide_eq_true_2 by done. cbv zeta.
  rewrite build_cache_entries, Hm, insert_new_entries_first; done.
Qed.

(** ** Category resolution: claims C1 and C7 *)

(** C1 (the code departs from the claim).  The claim lets the category
    iterated first keep an extension that several categories list.  The
    index [organize_files] fills by plain assignment gives such an extension
    to the category iterated last, whatever the case of the letters, while
    the index that [get_category_for_extension] builds itself keeps the
    first one. *)
Theorem overlapping_extension_resolves_to_last_category :
  index_entries overlapping = [(".x", "Archives"); (".x", "Binaries")]
  /\ resolve overlapping ".x" = "Binaries"
  /\ resolve overlapping ".X" = "Binaries"
  /\ resolve_lazy overlapping ".x" = "Archives".
Proof. vm_compute. auto. Qed.

(** C7.  An extension that no category lists (letter case aside), and the
    empty extension, resolve to the default category "Others": inside
    [organize_files], with an index built on demand, and when the resolver
    is handed the pre-populated index directly.  For the empty extension the
    answer is given for every index, and the index is returned as it was. *)
Theorem absent_or_empty_extension_resolves_to_default m ext :
  ext = "" \/ lower ext ∉ normalized_extensions m ->
  resolve m ext = DEFAULT_OTHERS_FOLDER
  /\ resolve_lazy m ext = DEFAULT_OTHERS_FOLDER
  /\ (get_category_for_extension ext m (prepopulate m)).1 = DEFAULT_OTHERS_FOLDER
  /\ (ext = "" ->
      forall c, get_category_for_extension ext m c = (DEFAULT_OTHERS_FOLDER, c)).
Proof.
  intros Hext. destruct (decide (ext = "")) as [->|Hne].
  { repeat split; reflexivity. }
  destruct Hext as [?|Habs]; [done|].
  assert (prepopulate m !! ext = None) as Hraw.
  { destruct (prepopulate m !! ext) as [v|] eqn:Hk; [|done].
    apply prepopulate_key_normalized in Hk as [Hin Hlow].
    rewrite Hlow in Habs. done. }
  split; [|split; [|split]]; [| | |done].
  - unfold resolve.
    rewrite get_category_nonempty by (by rewrite lower_empty).
    rewrite prepopulate_absent by done. cbv zeta. rewrite lower_idem.
    case_bool_decide as Hempty.
    + rewrite Hempty. by rewrite build_cache_absent.
    + by rewrite prepopulate_absent.
  - unfold resolve_lazy. rewrite get_category_nonempty by done.
    rewrite lookup_empty, bool_decide_eq_true_2 by done. cbv zeta.
    by rewrite build_cache_absent.
  - rewrite get_category_nonempty by done. rewrite Hraw. cbv zeta.
    case_bool_decide as Hempty.
    + rewrite Hempty. by rewrite build_cache_absent.
    + by rewrite prepopulate_absent.
Qed.

Lemma absent_extension_witness :
  resolve two_categories ".PDF" = DEFAULT_OTHERS_FOLDER
  /\ resolve_lazy two_categories ".PDF" = DEFAULT_OTHERS_FOLDER
  /\ (get_category_for_extension ".PDF" two_categories
        (prepopulate two_categories)).1 = DEFAULT_OTHERS_FOLDER
  /\ (".PDF" = "" ->
      forall c, get_category_for_extension ".PDF" two_categories c
                = (DEFAULT_OTHERS_FOLDER, c)).
Proof.
  apply (absent_or_empty_extension_resolves_to_default two_categories ".PDF").
  right. apply (bool_decide_unpack _). vm_compute. exact I.
Defined.

(** ** Collision resolution: claims C2 and C8 *)

Section Loop.
Variable ex : Path -> bool.

Lemma collision_loop_Some fuel p c r :
  collision_loop ex fuel p c = Some r ->
  exists n, c <= n /\ r = candidate p n /\ ex r = false
            /\ forall k, c <= k < n -> ex (candidate p k) = true.
Proof.
  revert c. induction fuel as [|fuel IH]; intros c Hr; simpl in Hr; [done|].
  destruct (ex (candidate p c)) eqn:Hc.
  - apply IH in Hr as (n & Hle & -> & Hfree & Hbusy).
    exists n. repeat split; [lia|done|].
    intros k Hk. destruct (decide (k = c)) as [->|]; [done|].
    apply Hbusy. lia.
  - injection Hr as <-. exists c. repeat split; [lia|done|]. intros k Hk. lia.
Qed.

Lemma collision_loop_None fuel p c :
  collision_loop ex fuel p c = None ->
  forall k, c <= k < c + fuel -> ex (candidate p k) = true.
Proof.
  revert c. induction fuel as [|fuel IH]; intros c Hr k Hk; simpl in Hr; [lia|].
  destruct (ex (candidate p c)) eqn:Hc; [|done].
  destruct (decide (k = c)) as [->|]; [done|]. apply (IH (S c)); [done|lia].
Qed.

Lemma collision_loop_mono fuel fuel' p c r :
  collision_loop ex fuel p c = Some r -> fuel <= fuel' ->
  collision_loop ex fuel' p c = Some r.
Proof.
  revert fuel' c. induction fuel as [|fuel IH]; intros fuel' c Hr Hle;
    simpl in Hr; [done|].
  destruct fuel' as [|fuel']; [lia|]. simpl.
  destruct (ex (candidate p c)); [|done]. apply IH; [done|lia].
Qed.

(** When the existing paths are among those of [l], more tests than [l]
    has elements cannot all hit an existing candidate. *)
Lemma collision_loop_enough (l : list Path) fuel p c :
  (forall q, ex q = true -> q ∈ l) -> length l < fuel ->
  is_Some (collision_loop ex fuel p c).
Proof.
  intros Hfin Hfuel.
  destruct (collision_loop ex fuel p c) as [r|] eqn:Hr; [by eexists|].
  exfalso.
  assert (candidate p <$> seq c fuel ⊆+ l) as Hsub.
  { apply NoDup_submseteq.
    - apply NoDup_fmap_2_strong; [|apply NoDup_seq].
      intros n m _ _. apply candidate_inj.
    - intros q Hq. apply list_elem_of_fmap in Hq as (k & -> & Hk).
      apply Hfin. apply (collision_loop_None fuel p c Hr).
      apply elem_of_seq in Hk. lia. }
  apply submseteq_length in Hsub.
  rewrite length_fmap, length_seq in Hsub. lia.
Qed.
End Loop.

Lemma handle_collision_fuel_total (ex : Path -> bool) (l : list Path) p :
  (forall q, ex q = true -> q ∈ l) ->
  exists r, forall fuel, length l < fuel ->
                         handle_collision_fuel ex fuel p = Some r.
Proof.
  intros Hfin. unfold handle_collision_fuel.
  destruct (ex p) eqn:Hp; simpl; [|by exists p].
  destruct (collision_loop_enough ex l (S (length l)) p 1 Hfin) as [r Hr]; [lia|].
  exists r. intros fuel Hfuel.
  apply (collision_loop_mono ex (S (length l))); [done|lia].
Qed.

Section Collision.
Context {World : Type} `{FileSystem World}.

Lemma path_exists_elements (w : World) q :
  path_exists w q = true -> q ∈ elements (existing w).
Proof.
  unfold path_exists. intros Hq. apply bool_decide_eq_true in Hq.
  by apply elem_of_elements.
Qed.

(** The bound used by [handle_collision] is enough, and any larger one
    gives the same path. *)
Lemma handle_collision_fuel_enough (w : World) p fuel :
  size (existing w) < fuel ->
  handle_collision_fuel (path_exists w) fuel p = Some (handle_collision w p).
Proof.
  intros Hfuel.
  destruct (handle_collision_fuel_total (path_exists w)
              (elements (existing w)) p (path_exists_elements w)) as [r Hr].
  unfold handle_collision.
  rewrite (Hr (S (size (existing w)))) by (unfold size, set_size; simpl; lia).
  apply Hr. unfold size, set_size in Hfuel. simpl in Hfuel. done.
Qed.
End Collision.


(** C8.  When only finitely many paths exist (all of them are in a list
    [l]), the candidates of a destination are pairwise distinct and the
    loop of [handle_collision] ends: there is a path, which does not exist,
    that the function returns as soon as it is allowed more existence tests
    than [l] has elements. *)
Theorem handle_collision_terminates (ex : Path -> bool) (l : list Path)
    (p : Path) :
  (forall q, ex q = true -> q ∈ l) ->
  (forall n m, candidate p n = candidate p m -> n = m)
  /\ exists r, ex r = false
       /\ forall fuel, length l < fuel ->
                       handle_collision_fuel ex fuel p = Some r.
Proof.
  intros Hfin. split; [apply candidate_inj|].
  destruct (handle_collision_fuel_total ex l p Hfin) as [r Hr].
  exists r. split; [|done].
  specialize (Hr (S (length l)) ltac:(lia)).
  unfold handle_collision_fuel in Hr.
  destruct (ex p) eqn:Hp; cbn [negb] in Hr.
  - by apply collision_loop_Some in Hr as (n & _ & _ & Hfree & _).
  - by injection Hr as <-.
Qed.

(** ** The scan *)

Lemma is_protected_name_spec name :
  is_protected_name name = true <-> name ∈ protected_names.
Proof.
  unfold is_protected_name, protected_names.
  rewrite !orb_true_iff, !String.eqb_eq, !elem_of_cons, elem_of_nil. tauto.
Qed.

Lemma known_category_folders_spec m name :
  name ∈ known_category_folders m
  <-> name ∈ m.*1 \/ name = DEFAULT_OTHERS_FOLDER.
Proof.
  unfold known_category_folders.
  rewrite elem_of_union, elem_of_list_to_set, elem_of_singleton. tauto.
Qed.

Section Scan.
Context {World : Type} `{FileSystem World}.
Implicit Types (st : @State World) (w : World).

Lemma scan_cons target m known dry name rest st st' :
  process_item target m known dry name st = Returns st' ->
  scan target m known dry (name :: rest) st
  = scan target m known dry rest st'.
Proof. intros Hstep. simpl. by rewrite Hstep. Qed.

(** The body of the loop on a regular file that is not skipped. *)
Lemma process_item_file target m known dry name st :
  is_skipped known (fs st) (joinpath target name) = false ->
  is_file (fs st) (joinpath target name) = true ->
  process_item target m known dry name st
  = let r := get_category_for_extension (lower (name_suffix name)) m
               (extension_to_category_cache st) in
    let folder := joinpath target r.1 in
    if dry
    then Returns (preview_file (joinpath target name) folder
                    (joinpath folder name) (set_cache r.2 st))
    else move_file (joinpath target name) folder (joinpath folder name)
           (set_cache r.2 st).
Proof.
  intros Hskip Hfile. unfold process_item, organize_file.
  rewrite Hskip, Hfile. unfold path_suffix. rewrite path_name_joinpath.
  by destruct (get_category_for_extension _ _ _).
Qed.

Lemma move_file_mkdir_fails item folder file st w1 :
  os_mkdir (fs st) folder = (w1, Some OSError) ->
  move_file item folder file st
  = Returns (incr_skipped (log ERROR (MsgMkdirFailed folder OSError)
               (set_fs w1 (emit (CallMkdir folder) st)))).
Proof. intros Hmk. unfold move_file. by rewrite Hmk. Qed.

Lemma move_file_move_fails item folder file st w1 w2 e :
  os_mkdir (fs st) folder = (w1, None) ->
  os_move w1 item (handle_collision w1 file) = (w2, Some e) ->
  move_file item folder file st
  = Returns (incr_skipped (log ERROR (MsgMoveFailed (path_name item) e)
               (set_fs w2 (emit (CallMove item (handle_collision w1 file))
                  (set_fs w1 (emit (CallMkdir folder) st)))))).
Proof. intros Hmk Hmv. unfold move_file. by rewrite Hmk, Hmv. Qed.

Lemma move_file_moves item folder file st w1 w2 :
  os_mkdir (fs st) folder = (w1, None) ->
  os_move w1 item (handle_collision w1 file) = (w2, None) ->
  move_file item folder file st
  = Returns (incr_moved
      (log INFO (MsgMoved (path_name item) (path_name folder)
                   (path_name (handle_collision w1 file)))
         (set_fs w2 (emit (CallMove item (handle_collision w1 file))
            (set_fs w1 (emit (CallMkdir folder) st)))))).
Proof. intros Hmk Hmv. unfold move_file. by rewrite Hmk, Hmv. Qed.

(** In a dry run the body of the loop returns, leaves the file system and
    the skipped counter alone, and only logs. *)
Lemma process_item_dry_run target m known name st :
  exists st' tr,
    process_item target m known true name st = Returns st'
    /\ fs st' = fs st
    /\ files_skipped st' = files_skipped st
    /\ trace st' = trace st ++ tr
    /\ Forall (fun ev => is_mutation ev = false) tr.
Proof.
  unfold process_item.
  destruct (is_skipped _ _ _).
  { eexists _, [_]. repeat split. by repeat constructor. }
  destruct (is_file _ _).
  - unfold organize_file. destruct (get_category_for_extension _ _ _) as [cat c'].
    unfold preview_file. simpl. destruct (path_exists _ _).
    + eexists _, [_]. repeat split. by repeat constructor.
    + eexists _, [_]. repeat split. by repeat constructor.
  - destruct (is_dir _ _).
    + eexists _, [_]. repeat split. by repeat constructor.
    + exists st, []. repeat split; [by rewrite app_nil_r|constructor].
Qed.

Lemma scan_dry_run target m known items st :
  exists st' tr,
    scan target m known true items st = Returns st'
    /\ fs st' = fs st
    /\ files_skipped st' = files_skipped st
    /\ trace st' = trace st ++ tr
    /\ Forall (fun ev => is_mutation ev = false) tr.
Proof.
  revert st. induction items as [|name rest IH]; intros st.
  { exists st, []. repeat split; [by rewrite app_nil_r|constructor]. }
  destruct (process_item_dry_run target m known name st)
    as (st1 & tr1 & Hstep & Hfs1 & Hsk1 & Htr1 & Hq1).
  destruct (IH st1) as (st2 & tr2 & Hscan & Hfs2 & Hsk2 & Htr2 & Hq2).
  exists st2, (tr1 ++ tr2). rewrite (scan_cons _ _ _ _ _ _ _ _ Hstep).
  repeat split; [done|congruence|congruence| |by apply Forall_app].
  by rewrite Htr2, Htr1, app_assoc.
Qed.
End Scan.

Section Runs.
Context {World : Type} `{FileSystem World}.
Implicit Types (st : @State World) (w : World).

Lemma report_trace dry st :
  exists tr,
    trace (report dry st)
    = trace st ++ [Log INFO MsgSeparator; Log INFO (MsgComplete dry);
                   Log INFO (MsgProcessed (files_moved st));
                   Log INFO (MsgSkipped (files_skipped st))] ++ tr
    /\ Forall (fun ev => is_mutation ev = false) tr
    /\ Forall (fun ev => moves_protected ev = false) tr.
Proof.
  unfold report. destruct (negb dry && _); simpl.
  - exists [Log INFO MsgLogSaved]. rewrite <- !app_assoc. simpl.
    repeat split; by repeat constructor.
  - exists []. rewrite <- !app_assoc. simpl. repeat split; constructor.
Qed.

Lemma report_state dry st :
  fs (report dry st) = fs st
  /\ files_moved (report dry st) = files_moved st
  /\ files_skipped (report dry st) = files_skipped st.
Proof. unfold report. by destruct (negb dry && _). Qed.

(** A dry run of [organize_files] as a whole. *)
Lemma organize_files_dry_run target m w :
  exists st,
    organize_files target m true w = Returns st
    /\ fs st = w
    /\ files_skipped st = 0
    /\ Forall (fun ev => is_mutation ev = false) (trace st)
    /\ (is_dir w target = true -> Log INFO (MsgSkipped 0) ∈ trace st).
Proof.
  unfold organize_files. destruct (is_dir w target); cbn [negb].
  - match goal with |- context [scan _ _ ?k true ?l ?s] =>
      destruct (scan_dry_run target m k l s)
        as (st' & tr & -> & Hfs & Hsk & Htr & Hq) end.
    simpl in Hfs, Hsk, Htr.
    destruct (report_trace true st') as (tr' & Hrep & Hq' & _).
    destruct (report_state true st') as (Hrfs & _ & Hrsk).
    eexists. split; [done|]. rewrite Hrfs, Hrsk, Hrep, Htr, Hsk.
    repeat split; [done| |].
    + rewrite !Forall_app. repeat split; by repeat constructor.
    + intros _. rewrite !elem_of_app, !elem_of_cons. tauto.
  - eexists. split; [done|]. simpl. repeat split; [|done].
    by repeat constructor.
Qed.

(** No [CallMove] of the body of the loop has a protected source. *)
Lemma process_item_moves target m known dry name st :
  Forall (fun ev => moves_protected ev = false) (trace st) ->
  Forall (fun ev => moves_protected ev = false)
    (trace (final_state (process_item target m known dry name st))).
Proof.
  intros Hst. unfold process_item.
  destruct (is_skipped _ _ _) eqn:Hskip.
  { simpl. rewrite Forall_app. split; [done|]. by repeat constructor. }
  apply orb_false_iff in Hskip as [Hname _].
  destruct (is_file _ _).
  - unfold organize_file.
    destruct (get_category_for_extension _ _ _) as [cat c'].
    destruct dry.
    + unfold preview_file. destruct (path_exists _ _); simpl;
        (rewrite Forall_app; split; [done|by repeat constructor]).
    + unfold move_file. simpl.
      destruct (os_mkdir _ _) as [w1 [e|]].
      * destruct (is_OSError e); simpl; rewrite <- ?app_assoc;
          (rewrite Forall_app; split; [done|by repeat constructor]).
      * destruct (os_move _ _ _) as [w2 [e|]]; simpl; rewrite <- ?app_assoc;
          (rewrite Forall_app; split; [done|by repeat constructor]).
  - destruct (is_dir _ _); simpl; [|done].
    rewrite Forall_app. split; [done|]. by repeat constructor.
Qed.

Lemma scan_moves target m known dry items st :
  Forall (fun ev => moves_protected ev = false) (trace st) ->
  Forall (fun ev => moves_protected ev = false)
    (trace (final_state (scan target m known dry items st))).
Proof.
  revert st. induction items as [|name rest IH]; intros st Hst; [done|].
  pose proof (process_item_moves target m known dry name st Hst) as Hstep.
  simpl. destruct (process_item _ _ _ _ _ _) as [st'|e st']; simpl in Hstep.
  - by apply IH.
  - done.
Qed.

Lemma organize_files_moves target m dry w :
  Forall (fun ev => moves_protected ev = false)
    (trace (final_state (organize_files target m dry w))).
Proof.
  unfold organize_files. destruct (is_dir w target); cbn [negb].
  - match goal with |- context [scan _ _ ?k dry ?l ?s] =>
      pose proof (scan_moves target m k dry l s) as Hscan;
      destruct (scan target m k dry l s) as [st'|e st'] end;
      simpl in Hscan |- *.
    + destruct (report_trace dry st') as (tr' & -> & _ & Hq').
      rewrite !Forall_app. repeat split; [|by repeat constructor|done].
      apply Hscan. by repeat constructor.
    + apply Hscan. by repeat constructor.
  - simpl. by repeat constructor.
Qed.


End Runs.

(** ** The directory organizer: claims C3, C4, C5, C6, C9 and C10 *)

(** C3.  A dry run mutates nothing, for every target directory and every
    configuration: [organize_files] returns, the file system at the end is
    the one it started on, and it made no [mkdir] and no [move] call. *)
Theorem dry_run_performs_no_mutation {World : Type} `{FileSystem World}
    (target : Path) (m : CategoryMap) (w : World) :
  exists st,
    organize_files target m true w = Returns st
    /\ fs st = w
    /\ Forall (fun ev => is_mutation ev = false) (trace st).
Proof.
  destruct (organize_files_dry_run target m w) as (st & Hrun & Hfs & _ & Hq & _).
  by exists st.
Qed.

(** C9.  A dry run ends with a skipped count of zero, and when the scan
    took place that is the count its summary reports. *)
Theorem dry_run_skips_nothing {World : Type} `{FileSystem World}
    (target : Path) (m : CategoryMap) (w : World) :
  exists st,
    organize_files target m true w = Returns st
    /\ files_skipped st = 0
    /\ (is_dir w target = true -> Log INFO (MsgSkipped 0) ∈ trace st).
Proof.
  destruct (organize_files_dry_run target m w) as (st & Hrun & _ & Hsk & _ & Hlog).
  by exists st.
Qed.

Lemma dry_run_skips_nothing_witness :
  exists st,
    organize_files ["t"] images_only true collision_tree = Returns st
    /\ files_skipped st = 0
    /\ (is_dir collision_tree ["t"] = true ->
        Log INFO (MsgSkipped 0) ∈ trace st).
Proof. apply (dry_run_skips_nothing ["t"] images_only collision_tree). Defined.

(** C6.  When the target is not a directory (or does not exist),
    [organize_files] logs one error and returns: the file system is the one
    it was given, nothing else is in the trace (no [mkdir], no [move], no
    message about an entry) and both counters read zero. *)
Theorem missing_target_aborts_before_any_action {World : Type}
    `{FileSystem World} (target : Path) (m : CategoryMap) (dry_run : bool)
    (w : World) :
  is_dir w target = false ->
  organize_files target m dry_run w
  = Returns (mkState w [Log ERROR (MsgTargetNotFound target)] 0 0 ∅).
Proof. intros Hdir. unfold organize_files. by rewrite Hdir. Qed.

Lemma missing_target_witness :
  organize_files ["t"] images_only false empty_tree
  = Returns (mkState empty_tree [Log ERROR (MsgTargetNotFound ["t"])] 0 0 ∅).
Proof.
  apply (missing_target_aborts_before_any_action ["t"] images_only false
           empty_tree).
  reflexivity.
Defined.

(** C4.  In a dry run as in a real one: an entry named like the script,
    the configuration file or the log file, and a directory named like a
    category of the configuration or like the default category, only gets a
    debug message: the body of the loop returns at once, before any category
    is resolved, with the file system, the counters and the index as they
    were.  And over a whole run no [move] is ever called on a source that
    bears one of the three protected names. *)
Theorem protected_entries_are_never_moved {World : Type} `{FileSystem World}
    (target : Path) (m : CategoryMap) (dry_run : bool) :
  (forall (name : string) (st : @State World),
      name ∈ protected_names
      \/ (is_dir (fs st) (joinpath target name) = true
          /\ (name ∈ m.*1 \/ name = DEFAULT_OTHERS_FOLDER)) ->
      process_item target m (known_category_folders m) dry_run name st
      = Returns (log DEBUG (MsgSkipping name) st))
  /\ (forall w : World,
        Forall (fun ev => moves_protected ev = false)
          (trace (final_state (organize_files target m dry_run w)))).
Proof.
  split; [|apply organize_files_moves].
  intros name st Hprot. unfold process_item.
  rewrite path_name_joinpath.
  assert (is_skipped (known_category_folders m) (fs st) (joinpath target name)
          = true) as ->; [|done].
  unfold is_skipped. rewrite path_name_joinpath. apply orb_true_iff.
  destruct Hprot as [Hname|[Hdir Hcat]].
  - left. by apply is_protected_name_spec.
  - right. rewrite Hdir. apply bool_decide_eq_true.
    by apply known_category_folders_spec.
Qed.

Lemma protected_entries_witness :
  process_item ["t"] images_only (known_category_folders images_only) false
    "Images" (init_state protected_tree)
  = Returns (log DEBUG (MsgSkipping "Images") (init_state protected_tree))
  /\ process_item ["t"] images_only (known_category_folders images_only) false
       "organizer.py" (init_state protected_tree)
     = Returns (log DEBUG (MsgSkipping "organizer.py")
                  (init_state protected_tree)).
Proof.
  split.
  - apply (proj1 (protected_entries_are_never_moved ["t"] images_only false)).
    right. split; [reflexivity|]. left.
    apply (bool_decide_unpack _). vm_compute. exact I.
  - apply (proj1 (protected_entries_are_never_moved ["t"] images_only false)).
    left. apply (bool_decide_unpack _). vm_compute. exact I.
Defined.






(** C10 (amended).  A regular file that is not a directory, is named like a
    category or like the default category, and does not bear one of the
    three protected names, passes the skip test and is handled as any other
    file, by the category of its extension.  A dry run reports it and counts
    it as moved.  A real run moves it to the collision-free path in the
    category folder and counts it as moved when creating the folder and
    moving succeed, and counts it as skipped, without any [move] call, when
    creating the folder fails with an [OSError]. *)
Theorem category_named_file_is_organized {World : Type} `{FileSystem World}
    (target : Path) (m : CategoryMap) (name : string) (st : @State World) :
  is_file (fs st) (joinpath target name) = true ->
  is_dir (fs st) (joinpath target name) = false ->
  name ∈ m.*1 \/ name = DEFAULT_OTHERS_FOLDER ->
  name ∉ protected_names ->
  let item := joinpath target name in
  let folder := destination_folder target m st name in
  let known := known_category_folders m in
  is_skipped known (fs st) item = false
  /\ (exists st' shown,
        process_item target m known true name st = Returns st'
        /\ fs st' = fs st
        /\ files_moved st' = S (files_moved st)
        /\ files_skipped st' = files_skipped st
        /\ trace st' = trace st ++ [Log INFO shown]
        /\ (shown = MsgDryRun name (path_name folder) name
            \/ shown = MsgDryRunCollision name (path_name folder)
                 (path_name (handle_collision (fs st) (joinpath folder name)))))
  /\ (forall w1 w2,
        os_mkdir (fs st) folder = (w1, None) ->
        os_move w1 item (handle_collision w1 (joinpath folder name))
        = (w2, None) ->
        exists st',
          process_item target m known false name st = Returns st'
          /\ fs st' = w2
          /\ files_moved st' = S (files_moved st)
          /\ files_skipped st' = files_skipped st
          /\ trace st'
             = trace st
               ++ [CallMkdir folder;
                   CallMove item (handle_collision w1 (joinpath folder name));
                   Log INFO
                     (MsgMoved name (path_name folder)
                        (path_name
                           (handle_collision w1 (joinpath folder name))))])
  /\ (forall w1,
        os_mkdir (fs st) folder = (w1, Some OSError) ->
        exists st',
          process_item target m known false name st = Returns st'
          /\ fs st' = w1
          /\ files_moved st' = files_moved st
          /\ files_skipped st' = S (files_skipped st)
          /\ trace st'
             = trace st
               ++ [CallMkdir folder;
                   Log ERROR (MsgMkdirFailed folder OSError)]).
Proof.
  intros Hfile Hdir _ Hname item folder known.
  assert (is_skipped known (fs st) item = false) as Hskip.
  { unfold is_skipped, item. rewrite path_name_joinpath, Hdir.
    rewrite andb_false_l, orb_false_r.
    apply not_true_is_false. by rewrite is_protected_name_spec. }
  split; [done|]. split; [|split].
  - rewrite (process_item_file target m known true name st Hskip Hfile).
    cbv zeta. unfold preview_file, folder, destination_folder.
    cbn [fs set_cache]. destruct (path_exists _ _).
    + eexists _, _. split; [done|]. simpl. rewrite !path_name_joinpath.
      repeat split. by right.
    + eexists _, _. split; [done|]. simpl. rewrite !path_name_joinpath.
      repeat split. by left.
  - intros w1 w2 Hmk Hmv.
    rewrite (process_item_file target m known false name st Hskip Hfile).
    cbv zeta.
    rewrite (move_file_moves _ _ _ _ w1 w2) by (exact Hmk || exact Hmv).
    eexists. split; [done|]. simpl. unfold item at 1.
    rewrite path_name_joinpath, <- !app_assoc. done.
  - intros w1 Hmk.
    rewrite (process_item_file target m known false name st Hskip Hfile).
    cbv zeta.
    rewrite (move_file_mkdir_fails _ _ _ _ w1) by exact Hmk.
    eexists. split; [done|]. simpl. rewrite <- !app_assoc. done.
Qed.

(** A regular file named "Images", next to a configuration with an
    "Images" category: it has no extension and goes to "Others". *)
Lemma images_file_is_regular :
  is_file (fs (init_state images_file_tree)) (joinpath ["t"] "Images") = true
  /\ is_dir (fs (init_state images_file_tree)) (joinpath ["t"] "Images") = false
  /\ ("Images" ∈ images_only.*1 \/ "Images" = DEFAULT_OTHERS_FOLDER)
  /\ "Images" ∉ protected_names.
Proof.
  split; [reflexivity|]. split; [reflexivity|]. split.
  - left. apply (bool_decide_unpack _). vm_compute. exact I.
  - apply (bool_decide_unpack _). vm_compute. exact I.
Qed.

Lemma images_file_mkdir :
  os_mkdir (fs (init_state images_file_tree))
    (destination_folder ["t"] images_only (init_state images_file_tree)
       "Images")
  = (images_file_tree_with_folder, None).
Proof. vm_compute. reflexivity. Qed.

Lemma images_file_move :
  os_move images_file_tree_with_folder (joinpath ["t"] "Images")
    (handle_collision images_file_tree_with_folder
       (joinpath
          (destination_folder ["t"] images_only (init_state images_file_tree)
             "Images")
          "Images"))
  = (images_file_tree_moved, None).
Proof. vm_compute. reflexivity. Qed.

Lemma category_named_file_witness :
  is_skipped (known_category_folders images_only)
    (fs (init_state images_file_tree)) (joinpath ["t"] "Images") = false
  /\ exists st',
       process_item ["t"] images_only (known_category_folders images_only)
         false "Images" (init_state images_file_tree) = Returns st'
       /\ fs st' = images_file_tree_moved
       /\ files_moved st' = 1.
Proof.
  destruct images_file_is_regular as (Hfile & Hdir & Hcat & Hname).
  destruct (category_named_file_is_organized ["t"] images_only "Images"
              (init_state images_file_tree) Hfile Hdir Hcat Hname)
    as (Hskip & _ & Hreal & _).
  split; [exact Hskip|].
  destruct (Hreal _ _ images_file_mkdir images_file_move)
    as (st' & Hrun & Hfs & Hmoved & _).
  exists st'. split; [exact Hrun|]. split; [exact Hfs|exact Hmoved].
Defined.

(** C10 as stated fails: a regular file named "Others" has no extension, so
    its category folder is the path of the file itself; in a real run
    creating that folder fails and the file is counted as skipped and stays
    where it is. *)
Lemma file_named_as_default_category_is_not_moved :
  is_file others_tree ["t"; "Others"] = true
  /\ is_dir others_tree ["t"; "Others"] = false
  /\ "Others" = DEFAULT_OTHERS_FOLDER
  /\ is_protected_name "Others" = false
  /\ iterdir others_tree ["t"] = ["Others"]
  /\ organize_files ["t"] images_only false others_tree
     = Returns
         (mkState others_tree
            [Log INFO (MsgScanning ["t"] false);
             CallMkdir ["t"; "Others"];
             Log ERROR (MsgMkdirFailed ["t"; "Others"] OSError);
             Log INFO MsgSeparator; Log INFO (MsgComplete false);
             Log INFO (MsgProcessed 0); Log INFO (MsgSkipped 1)]
            0 1 (prepopulate images_only)).
Proof. repeat split; vm_compute; reflexivity. Qed.

(** Witnesses for C2 and C8 *)


Lemma handle_collision_terminates_witness :
  (forall n m, candidate ["d"; "a.txt"] n = candidate ["d"; "a.txt"] m -> n = m)
  /\ exists r,
       bool_decide (r ∈ [["d"; "a.txt"]; ["d"; "a_1.txt"]]) = false
       /\ forall fuel, length [["d"; "a.txt"]; ["d"; "a_1.txt"]] < fuel ->
            handle_collision_fuel
              (fun q => bool_decide (q ∈ [["d"; "a.txt"]; ["d"; "a_1.txt"]]))
              fuel ["d"; "a.txt"] = Some r.
Proof.
  apply (handle_collision_terminates
           (fun q => bool_decide (q ∈ [["d"; "a.txt"]; ["d"; "a_1.txt"]]))
           [["d"; "a.txt"]; ["d"; "a_1.txt"]] ["d"; "a.txt"]).
  intros q Hq. by apply bool_decide_eq_true in Hq.
Defined.

(** ** The end-to-end scenarios of the specification *)

Example scenario_real_run :
  organize_files ["t"] two_categories false mixed_tree
  = Returns
      (mkState
         (Posix.tree_of [(["t"], Posix.Directory);
                         (["t"; "archive"], Posix.Directory);
                         (["t"; "Images"], Posix.Directory);
                         (["t"; "Images"; "photo.JPG"], Posix.RegularFile);
                         (["t"; "Documents"], Posix.Directory);
                         (["t"; "Documents"; "notes.txt"], Posix.RegularFile)])
         (trace (final_state
                   (organize_files ["t"] two_categories false mixed_tree)))
         2 0 (prepopulate two_categories)).
Proof. vm_compute. reflexivity. Qed.

Example scenario_collision :
  handle_collision collision_tree ["t"; "Images"; "image.png"]
  = ["t"; "Images"; "image_1.png"]
  /\ CallMove ["t"; "image.png"] ["t"; "Images"; "image_1.png"]
     ∈ trace (final_state
                (organize_files ["t"] images_only false collision_tree))
  /\ Log INFO (MsgDryRunCollision "image.png" "Images" "image_1.png")
     ∈ trace (final_state
                (organize_files ["t"] images_only true collision_tree)).
Proof.
  split; [vm_compute; reflexivity|].
  split; apply (bool_decide_unpack _); vm_compute; exact I.
Qed.

(* ===================================================================== *)
(** * Further properties of the code *)
(* ===================================================================== *)

(** ** The index and its lookups *)

Section MoreFolds.
Implicit Types (c : gmap string string) (l : list (string * string)).

Lemma insert_entries_is_Some c l k :
  is_Some (c !! k) \/ k ∈ l.*1 -> is_Some (foldl insert_entry c l !! k).
Proof.
  revert c. induction l as [|[k' v'] l IH]; intros c Hk; simpl.
  { destruct Hk as [Hk|Hk]; [done|]. by apply elem_of_nil in Hk. }
  apply IH. unfold insert_entry. simpl.
  destruct (decide (k' = k)) as [->|Hne].
  - left. rewrite lookup_insert_eq. by eexists.
  - rewrite lookup_insert_ne by done.
    destruct Hk as [Hk|Hk]; [by left|].
    rewrite fmap_cons, elem_of_cons in Hk. simpl in Hk.
    destruct Hk as [Hk|Hk]; [congruence|by right].
Qed.

Lemma insert_new_entries_is_Some c l k :
  is_Some (c !! k) \/ k ∈ l.*1 -> is_Some (foldl insert_new_entry c l !! k).
Proof.
  revert c. induction l as [|[k' v'] l IH]; intros c Hk; simpl.
  { destruct Hk as [Hk|Hk]; [done|]. by apply elem_of_nil in Hk. }
  apply IH. unfold insert_new_entry. simpl.
  destruct (decide (k' = k)) as [->|Hne].
  - left. destruct (c !! k) eqn:Hck; [by rewrite Hck|].
    rewrite lookup_insert_eq. by eexists.
  - destruct Hk as [Hk|Hk].
    + left. destruct (c !! k'); [done|]. by rewrite lookup_insert_ne.
    + rewrite fmap_cons, elem_of_cons in Hk. simpl in Hk.
      destruct Hk as [Hk|Hk]; [congruence|by right].
Qed.

Lemma insert_new_entries_Some c l k v :
  foldl insert_new_entry c l !! k = Some v -> c !! k = Some v \/ (k, v) ∈ l.
Proof.
  revert c. induction l as [|[k' v'] l IH]; intros c Hl; simpl in *; [by left|].
  apply IH in Hl as [Hl|Hl]; [|right; apply elem_of_cons; by right].
  unfold insert_new_entry in Hl. simpl in Hl.
  destruct (c !! k') eqn:Hck; [by left|].
  destruct (decide (k' = k)) as [->|Hne].
  - rewrite lookup_insert_eq in Hl. injection Hl as ->. right.
    apply elem_of_cons. by left.
  - rewrite lookup_insert_ne in Hl by done. by left.
Qed.
End MoreFolds.

Lemma prepopulate_empty m : prepopulate m = ∅ -> index_entries m = [].
Proof.
  rewrite prepopulate_entries. intros Hempty.
  destruct (index_entries m) as [|[k v] l]; [done|]. exfalso.
  destruct (insert_entries_is_Some ∅ ((k, v) :: l) k) as [x Hx].
  { right. rewrite fmap_cons. apply elem_of_cons. by left. }
  rewrite Hempty, lookup_empty in Hx. done.
Qed.

(** What [get_category_for_extension] does on the pre-populated index. *)
Lemma get_category_prepopulated ext m :
  ext <> "" ->
  get_category_for_extension ext m (prepopulate m)
  = (default (default DEFAULT_OTHERS_FOLDER (prepopulate m !! lower ext))
       (prepopulate m !! ext),
     prepopulate m).
Proof.
  intros Hne. rewrite get_category_nonempty by done.
  destruct (prepopulate m !! ext); [done|]. cbv zeta.
  case_bool_decide as Hempty; [|done].
  rewrite build_cache_entries, (prepopulate_empty m Hempty). done.
Qed.

(** X1.  On the index of [organize_files] the lookup does not depend on the
    letter case of the extension it is given. *)
Theorem lookup_ignores_letter_case (m : CategoryMap) (extension : string) :
  (get_category_for_extension extension m (prepopulate m)).1
  = (get_category_for_extension (lower extension) m (prepopulate m)).1.
Proof.
  destruct (decide (extension = "")) as [->|Hne]; [done|].
  rewrite !get_category_prepopulated by (by rewrite ?lower_empty).
  rewrite lower_idem. cbn [fst].
  destruct (prepopulate m !! extension) as [c|] eqn:Hraw.
  - apply prepopulate_key_normalized in Hraw as Hkey.
    destruct Hkey as [_ Hlow]. rewrite Hlow, Hraw. done.
  - by destruct (prepopulate m !! lower extension).
Qed.

(** Lookups hand the pre-populated index back as it was. *)
Lemma get_category_keeps_prepopulated (m : CategoryMap) (extension : string) :
  (get_category_for_extension extension m (prepopulate m)).2 = prepopulate m.
Proof.
  destruct (decide (extension = "")) as [->|Hne]; [done|].
  by rewrite get_category_prepopulated.
Qed.

(** X3.  When no extension is listed under two different categories
    (letter case aside), the index that [get_category_for_extension] builds
    from nothing is the index that [organize_files] pre-populates. *)
Theorem index_builders_agree_without_conflicts (m : CategoryMap) :
  (forall k c1 c2,
      (k, c1) ∈ index_entries m -> (k, c2) ∈ index_entries m -> c1 = c2) ->
  build_cache m ∅ = prepopulate m.
Proof.
  intros Hfun. rewrite build_cache_entries, prepopulate_entries.
  apply map_eq. intros k.
  destruct (decide (k ∈ (index_entries m).*1)) as [Hin|Hout].
  - destruct (insert_new_entries_is_Some ∅ (index_entries m) k) as [v1 Hv1];
      [by right|].
    destruct (insert_entries_is_Some ∅ (index_entries m) k) as [v2 Hv2];
      [by right|].
    rewrite Hv1, Hv2. f_equal.
    apply insert_new_entries_Some in Hv1 as [Hv1|Hv1]; [done|].
    apply insert_entries_Some in Hv2 as [Hv2|Hv2]; [done|].
    by eapply Hfun.
  - by rewrite insert_new_entries_other, insert_entries_other.
Qed.

Lemma index_builders_agree_witness :
  build_cache two_categories ∅ = prepopulate two_categories.
Proof.
  apply (index_builders_agree_without_conflicts two_categories).
  intros k c1 c2 H1 H2.
  change (index_entries two_categories)
    with [(".jpg", "Images"); (".txt", "Documents")] in H1, H2.
  rewrite !elem_of_cons, elem_of_nil in H1, H2.
  intuition congruence.
Defined.

(** X4.  A non-empty extension that the configuration lists under one
    category only (letter case aside) resolves to that category, in any
    letter case, inside [organize_files] as well as with an index built on
    demand. *)
Theorem unambiguous_extension_resolves_to_its_category (m : CategoryMap)
    (E C : string) :
  E <> "" ->
  (lower E, C) ∈ index_entries m ->
  (forall C', (lower E, C') ∈ index_entries m -> C' = C) ->
  resolve m E = C /\ resolve_lazy m E = C.
Proof.
  intros HE Hin Honly.
  assert (lower E ∈ (index_entries m).*1) as Hkey.
  { apply list_elem_of_fmap. by exists (lower E, C). }
  split.
  - unfold resolve.
    rewrite get_category_prepopulated by (by rewrite lower_empty).
    rewrite lower_idem, prepopulate_entries. cbn [fst].
    destruct (insert_entries_is_Some ∅ (index_entries m) (lower E)) as [v Hv];
      [by right|].
    rewrite Hv. simpl.
    apply insert_entries_Some in Hv as [Hv|Hv]; [done|]. by apply Honly.
  - unfold resolve_lazy. rewrite get_category_nonempty by done.
    rewrite lookup_empty, bool_decide_eq_true_2 by done. cbv zeta.
    rewrite build_cache_entries. cbn [fst].
    destruct (insert_new_entries_is_Some ∅ (index_entries m) (lower E))
      as [v Hv]; [by right|].
    rewrite Hv. simpl.
    apply insert_new_entries_Some in Hv as [Hv|Hv]; [done|]. by apply Honly.
Qed.

Lemma unambiguous_extension_witness :
  resolve two_categories ".JPG" = "Images"
  /\ resolve_lazy two_categories ".JPG" = "Images".
Proof.
  apply (unambiguous_extension_resolves_to_its_category two_categories
           ".JPG" "Images").
  - discriminate.
  - change (index_entries two_categories)
      with [(".jpg", "Images"); (".txt", "Documents")].
    change (lower ".JPG") with ".jpg". apply elem_of_cons. by left.
  - intros C'.
    change (index_entries two_categories)
      with [(".jpg", "Images"); (".txt", "Documents")].
    change (lower ".JPG") with ".jpg".
    rewrite !elem_of_cons, elem_of_nil. intuition congruence.
Defined.

(** X5.  Inside [organize_files], a non-empty extension that is listed
    several times goes to the category of its last listing in iteration
    order, in any letter case. *)
Theorem duplicate_extension_goes_to_last_listing (m : CategoryMap)
    (l1 l2 : list (string * string)) (E C : string) :
  E <> "" -> index_entries m = l1 ++ (lower E, C) :: l2 -> lower E ∉ l2.*1 ->
  resolve m E = C.
Proof.
  intros HE Hm Hlast. unfold resolve.
  rewrite get_category_prepopulated by (by rewrite lower_empty).
  rewrite lower_idem, prepopulate_entries, Hm, insert_entries_last by done.
  done.
Qed.

Lemma duplicate_extension_witness : resolve overlapping ".X" = "Binaries".
Proof.
  apply (duplicate_extension_goes_to_last_listing overlapping
           [(".x", "Archives")] [] ".X" "Binaries").
  - discriminate.
  - reflexivity.
  - apply not_elem_of_nil.
Defined.

(** X6.  With an index that [get_category_for_extension] builds from
    nothing, a non-empty extension that is listed several times goes to the
    category of its first listing in iteration order. *)
Theorem lazy_index_keeps_first_listing (m : CategoryMap)
    (l1 l2 : list (string * string)) (E C : string) :
  E <> "" -> index_entries m = l1 ++ (lower E, C) :: l2 -> lower E ∉ l1.*1 ->
  (get_category_for_extension E m ∅).1 = C
  /\ (get_category_for_extension E m ∅).2 !! lower E = Some C.
Proof.
  intros HE Hm Hfirst. rewrite get_category_nonempty by done.
  rewrite lookup_empty, bool_decide_eq_true_2 by done. cbv zeta. cbn [fst snd].
  rewrite build_cache_entries, Hm, insert_new_entries_first; done.
Qed.

Lemma lazy_index_witness :
  (get_category_for_extension ".X" overlapping ∅).1 = "Archives"
  /\ (get_category_for_extension ".X" overlapping ∅).2 !! lower ".X"
     = Some "Archives".
Proof.
  apply (lazy_index_keeps_first_listing overlapping
           [] [(".x", "Binaries")] ".X" "Archives").
  - discriminate.
  - reflexivity.
  - apply not_elem_of_nil.
Defined.

(** ** Names, stems and suffixes *)

Lemma string_app_cons c s t : String c s +:+ t = String c (s +:+ t).
Proof. reflexivity. Qed.

Lemma string_app_nil_l t : "" +:+ t = t.
Proof. reflexivity. Qed.

Lemma string_app_assoc s t u : (s +:+ t) +:+ u = s +:+ (t +:+ u).
Proof.
  induction s as [|c s IH]; [done|]. by rewrite !string_app_cons, IH.
Qed.

Lemma string_app_nil_r s : s +:+ "" = s.
Proof. induction s as [|c s IH]; [done|]. by rewrite string_app_cons, IH. Qed.

Lemma rfind_dot_app_dot a b :
  rfind_dot b = None -> rfind_dot (a +:+ String "." b) = Some (String.length a).
Proof.
  intros Hb. induction a as [|c a IH].
  - rewrite string_app_nil_l. simpl. by rewrite Hb.
  - rewrite string_app_cons. simpl. by rewrite IH.
Qed.

Lemma rfind_dot_Some s i :
  rfind_dot s = Some i ->
  exists a b, s = a +:+ String "." b /\ String.length a = i
              /\ rfind_dot b = None.
Proof.
  revert i. induction s as [|c s IH]; intros i Hs; simpl in Hs; [done|].
  destruct (rfind_dot s) as [j|] eqn:Hj.
  - injection Hs as <-. destruct (IH j eq_refl) as (a & b & -> & Hlen & Hb).
    exists (String c a), b. rewrite string_app_cons. simpl. by rewrite Hlen.
  - destruct (Ascii.eqb_spec c ".") as [->|]; [|done]. injection Hs as <-.
    by exists "", s.
Qed.

Lemma substring_all s : substring 0 (String.length s) s = s.
Proof. induction s as [|c s IH]; simpl; [done|]. by rewrite IH. Qed.

Lemma substring_app_tail a t :
  substring (String.length a) (String.length (a +:+ t) - String.length a)
    (a +:+ t) = t.
Proof.
  induction a as [|c a IH].
  - rewrite string_app_nil_l. simpl. rewrite Nat.sub_0_r. apply substring_all.
  - rewrite string_app_cons. simpl. apply IH.
Qed.

Lemma substring_app_head a t : substring 0 (String.length a) (a +:+ t) = a.
Proof.
  induction a as [|c a IH].
  - rewrite string_app_nil_l. simpl. by destruct t.
  - rewrite string_app_cons. simpl. by rewrite IH.
Qed.

(** A name is its stem followed by its suffix. *)
Lemma name_stem_suffix nm : name_stem nm +:+ name_suffix nm = nm.
Proof.
  unfold name_stem, name_suffix.
  destruct (rfind_dot nm) as [i|] eqn:Hi; [|apply string_app_nil_r].
  destruct (has_suffix_at nm i); [|apply string_app_nil_r].
  apply rfind_dot_Some in Hi as (a & b & -> & <- & _).
  by rewrite substring_app_head, substring_app_tail.
Qed.

(** A suffix, when there is one, is a dot followed by at least one
    character and no further dot, and the stem before it is not empty. *)
Lemma name_suffix_shape nm :
  name_suffix nm <> "" ->
  exists b, name_suffix nm = String "." b /\ rfind_dot b = None /\ b <> ""
            /\ name_stem nm <> "".
Proof.
  unfold name_stem, name_suffix.
  destruct (rfind_dot nm) as [i|] eqn:Hi; [|done].
  destruct (has_suffix_at nm i) eqn:Hat; [|done]. intros _.
  apply rfind_dot_Some in Hi as (a & b & -> & <- & Hb).
  rewrite substring_app_head, substring_app_tail.
  unfold has_suffix_at in Hat. apply andb_true_iff in Hat as [Hpos Hend].
  apply Nat.ltb_lt in Hpos, Hend.
  rewrite string_length_app in Hend. simpl in Hend.
  exists b. repeat split; [done| |].
  - intros ->. simpl in Hend. lia.
  - intros ->. simpl in Hpos. lia.
Qed.

Lemma name_suffix_app s b :
  s <> "" -> b <> "" -> rfind_dot b = None ->
  name_suffix (s +:+ String "." b) = String "." b.
Proof.
  intros Hs Hb Hdot. unfold name_suffix.
  rewrite rfind_dot_app_dot by done.
  assert (has_suffix_at (s +:+ String "." b) (String.length s) = true) as ->.
  { unfold has_suffix_at. rewrite string_length_app. simpl.
    apply andb_true_iff. split; apply Nat.ltb_lt.
    - destruct s; [done|]. simpl. lia.
    - destruct b; [done|]. simpl. lia. }
  apply substring_app_tail.
Qed.

(** A candidate keeps the suffix of the destination, when it has one. *)
Lemma candidate_suffix p n :
  path_suffix p <> "" -> path_suffix (candidate p n) = path_suffix p.
Proof.
  unfold path_suffix, candidate, path_stem, path_suffix.
  rewrite path_name_joinpath. intros Hsfx.
  destruct (name_suffix_shape _ Hsfx) as (b & -> & Hdot & Hb & Hstem).
  rewrite <- !string_app_assoc. apply name_suffix_app; [|done|done].
  destruct (name_stem (path_name p)); [done|]. discriminate.
Qed.

Lemma candidate_parent p n : path_parent (candidate p n) = path_parent p.
Proof. unfold candidate. apply path_parent_joinpath. Qed.

Example suffix_after_trailing_dot :
  path_suffix ["d"; "data."] = ""
  /\ path_suffix (candidate ["d"; "data."] 1) = "._1".
Proof. vm_compute. auto. Qed.

(** ** More on collision resolution *)

Section MoreCollision.
Context {World : Type} `{FileSystem World}.
Implicit Types (w : World) (p : Path).

Lemma handle_collision_cases w p :
  (path_exists w p = false /\ handle_collision w p = p)
  \/ (path_exists w p = true
      /\ exists N, 1 <= N /\ handle_collision w p = candidate p N
                   /\ path_exists w (candidate p N) = false).
Proof.
  pose proof (handle_collision_fuel_enough w p (S (size (existing w)))) as Hrun.
  specialize (Hrun ltac:(lia)). unfold handle_collision_fuel in Hrun.
  destruct (path_exists w p) eqn:Hp; cbn [negb] in Hrun.
  - right. split; [done|].
    apply collision_loop_Some in Hrun as (N & HN & Hres & Hfree & _).
    exists N. by rewrite <- Hres.
  - left. by injection Hrun as <-.
Qed.

Lemma handle_collision_free w p : path_exists w (handle_collision w p) = false.
Proof.
  destruct (handle_collision_cases w p) as [[Hp ->]|[_ (N & _ & -> & Hfree)]];
    done.
Qed.

Lemma handle_collision_parent w p :
  path_parent (handle_collision w p) = path_parent p.
Proof.
  destruct (handle_collision_cases w p) as [[_ ->]|[_ (N & _ & -> & _)]];
    [done|apply candidate_parent].
Qed.
End MoreCollision.

(** X7.  Collision resolution is idempotent, and the destinations it
    returns unchanged are exactly those that do not exist. *)
Theorem handle_collision_idempotent {World : Type} `{FileSystem World}
    (w : World) (p : Path) :
  handle_collision w (handle_collision w p) = handle_collision w p
  /\ (handle_collision w p = p <-> path_exists w p = false).
Proof.
  split.
  - destruct (handle_collision_cases w (handle_collision w p))
      as [[_ Hfix]|[Hex _]]; [done|].
    by rewrite handle_collision_free in Hex.
  - split.
    + intros Hfix. rewrite <- Hfix. apply handle_collision_free.
    + intros Hfree.
      destruct (handle_collision_cases w p) as [[_ Hfix]|[Hex _]]; [done|].
      congruence.
Qed.

(** X8.  The path that collision resolution returns for [folder / name]
    lies in [folder]. *)
Theorem handle_collision_stays_in_folder {World : Type} `{FileSystem World}
    (w : World) (folder : Path) (name : string) :
  path_parent (handle_collision w (joinpath folder name)) = folder.
Proof. by rewrite handle_collision_parent, path_parent_joinpath. Qed.

(** X9.  When the destination has a suffix, the path that collision
    resolution returns has the same suffix, so that the renamed file is
    still of the same category. *)
Theorem handle_collision_keeps_suffix {World : Type} `{FileSystem World}
    (w : World) (p : Path) :
  path_suffix p <> "" ->
  path_suffix (handle_collision w p) = path_suffix p
  /\ forall m, resolve m (path_suffix (handle_collision w p))
               = resolve m (path_suffix p).
Proof.
  intros Hsfx.
  assert (path_suffix (handle_collision w p) = path_suffix p) as Heq.
  { destruct (handle_collision_cases w p) as [[_ ->]|[_ (N & _ & -> & _)]];
      [done|by apply candidate_suffix]. }
  split; [done|]. intros m. by rewrite Heq.
Qed.

Lemma collision_tree_image_suffix :
  path_suffix ["t"; "Images"; "image.png"] <> "".
Proof. vm_compute. discriminate. Qed.

Lemma handle_collision_keeps_suffix_witness :
  path_suffix (handle_collision collision_tree ["t"; "Images"; "image.png"])
  = path_suffix ["t"; "Images"; "image.png"]
  /\ forall m,
       resolve m
         (path_suffix
            (handle_collision collision_tree ["t"; "Images"; "image.png"]))
       = resolve m (path_suffix ["t"; "Images"; "image.png"]).
Proof.
  apply (handle_collision_keeps_suffix collision_tree
           ["t"; "Images"; "image.png"] collision_tree_image_suffix).
Defined.

(** ** More on the scan *)

Section MoreScan.
Context {World : Type} `{FileSystem World}.
Implicit Types (st : @State World) (w : World).

Lemma state_eta st :
  mkState (fs st) (trace st) (files_moved st) (files_skipped st)
    (extension_to_category_cache st) = st.
Proof. by destruct st. Qed.

(** An entry that is skipped or is not a regular file changes nothing but
    the log. *)
Lemma process_item_ineligible target m known dry name st :
  is_eligible known (fs st) target name = false ->
  exists tr,
    process_item target m known dry name st
    = Returns (mkState (fs st) (trace st ++ tr) (files_moved st)
                 (files_skipped st) (extension_to_category_cache st))
    /\ (tr = [] \/ exists msg, tr = [Log DEBUG msg]).
Proof.
  unfold is_eligible, process_item. intros Hel.
  destruct (is_skipped _ _ _); [eexists [_]; split; [done|right; by eexists]|].
  destruct (is_file _ _); [done|].
  destruct (is_dir _ _); [eexists [_]; split; [done|right; by eexists]|].
  exists []. split; [|by left]. by rewrite app_nil_r, state_eta.
Qed.

Lemma process_item_dry_count target m known name st :
  exists st',
    process_item target m known true name st = Returns st'
    /\ fs st' = fs st
    /\ files_moved st'
       = files_moved st
         + (if is_eligible known (fs st) target name then 1 else 0).
Proof.
  destruct (is_eligible known (fs st) target name) eqn:Hel.
  - unfold is_eligible in Hel. apply andb_true_iff in Hel as [Hskip Hfile].
    apply negb_true_iff in Hskip.
    rewrite (process_item_file target m known true name st Hskip Hfile).
    cbv zeta. unfold preview_file.
    destruct (path_exists _ _); eexists; (split; [done|]); simpl;
      (split; [done|lia]).
  - destruct (process_item_ineligible target m known true name st Hel)
      as (tr & -> & _).
    eexists. split; [done|]. simpl. split; [done|lia].
Qed.

Lemma scan_dry_count target m known items st :
  exists st',
    scan target m known true items st = Returns st'
    /\ fs st' = fs st
    /\ files_moved st'
       = files_moved st
         + length (List.filter (is_eligible known (fs st) target) items).
Proof.
  revert st. induction items as [|name rest IH]; intros st.
  { exists st. simpl. repeat split. lia. }
  destruct (process_item_dry_count target m known name st)
    as (st1 & Hstep & Hfs1 & Hmv1).
  destruct (IH st1) as (st2 & Hscan & Hfs2 & Hmv2).
  exists st2. rewrite (scan_cons _ _ _ _ _ _ _ _ Hstep).
  split; [done|]. split; [congruence|].
  rewrite Hmv2, Hmv1, Hfs1. simpl.
  destruct (is_eligible known (fs st) target name); simpl; lia.
Qed.

Lemma scan_nothing_eligible target m known dry items st :
  (forall name, name ∈ items ->
                is_eligible known (fs st) target name = false) ->
  exists tr,
    scan target m known dry items st
    = Returns (mkState (fs st) (trace st ++ tr) (files_moved st)
                 (files_skipped st) (extension_to_category_cache st))
    /\ Forall (fun ev => is_mutation ev = false) tr.
Proof.
  revert st. induction items as [|name rest IH]; intros st Hnone.
  { exists []. simpl. by rewrite app_nil_r, state_eta. }
  destruct (process_item_ineligible target m known dry name st)
    as (tr1 & Hstep & Htr1); [apply Hnone, elem_of_cons; by left|].
  rewrite (scan_cons _ _ _ _ _ _ _ _ Hstep).
  edestruct IH as (tr2 & -> & Hq2).
  { intros name' Hin. simpl. apply Hnone, elem_of_cons. by right. }
  simpl. exists (tr1 ++ tr2). rewrite app_assoc. split; [done|].
  apply Forall_app. split; [|done].
  destruct Htr1 as [->|[msg ->]]; by repeat constructor.
Qed.

(** Every entry adds at most one to the two counters together. *)
Lemma process_item_bound target m known dry name st :
  files_moved (final_state (process_item target m known dry name st))
  + files_skipped (final_state (process_item target m known dry name st))
  <= S (files_moved st + files_skipped st).
Proof.
  unfold process_item.
  destruct (is_skipped _ _ _); [simpl; lia|].
  destruct (is_file _ _).
  - unfold organize_file.
    destruct (get_category_for_extension _ _ _) as [cat c'].
    destruct dry.
    + unfold preview_file. destruct (path_exists _ _); simpl; lia.
    + unfold move_file. simpl.
      destruct (os_mkdir _ _) as [w1 [e|]].
      * destruct (is_OSError e); simpl; lia.
      * destruct (os_move _ _ _) as [w2 [e|]]; simpl; lia.
  - destruct (is_dir _ _); simpl; lia.
Qed.

Lemma scan_bound target m known dry items st :
  files_moved (final_state (scan target m known dry items st))
  + files_skipped (final_state (scan target m known dry items st))
  <= files_moved st + files_skipped st + length items.
Proof.
  revert st. induction items as [|name rest IH]; intros st; simpl; [lia|].
  pose proof (process_item_bound target m known dry name st) as Hstep.
  destruct (process_item _ _ _ _ _ _) as [st'|e st']; simpl in Hstep |- *.
  - specialize (IH st'). lia.
  - lia.
Qed.

(** The counters are the numbers of the messages that go with them. *)
Lemma process_item_reports target m known dry name st :
  files_moved st = length (List.filter is_move_report (trace st))
  /\ files_skipped st = length (List.filter is_skip_report (trace st)) ->
  files_moved (final_state (process_item target m known dry name st))
  = length (List.filter is_move_report
              (trace (final_state (process_item target m known dry name st))))
  /\ files_skipped (final_state (process_item target m known dry name st))
     = length (List.filter is_skip_report
                 (trace (final_state
                           (process_item target m known dry name st)))).
Proof.
  intros [Hmv Hsk]. unfold process_item.
  destruct (is_skipped _ _ _);
    [simpl; rewrite !List.filter_app, !length_app; simpl; lia|].
  destruct (is_file _ _).
  - unfold organize_file.
    destruct (get_category_for_extension _ _ _) as [cat c'].
    destruct dry.
    + unfold preview_file. destruct (path_exists _ _); simpl;
        rewrite !List.filter_app, !length_app; simpl; lia.
    + unfold move_file. simpl.
      destruct (os_mkdir _ _) as [w1 [e|]].
      * destruct (is_OSError e); simpl;
          rewrite !List.filter_app, !length_app; simpl; lia.
      * destruct (os_move _ _ _) as [w2 [e|]]; simpl;
          rewrite !List.filter_app, !length_app; simpl; lia.
  - destruct (is_dir _ _); simpl; [|done].
    rewrite !List.filter_app, !length_app; simpl; lia.
Qed.

Lemma scan_reports target m known dry items st :
  files_moved st = length (List.filter is_move_report (trace st))
  /\ files_skipped st = length (List.filter is_skip_report (trace st)) ->
  files_moved (final_state (scan target m known dry items st))
  = length (List.filter is_move_report
              (trace (final_state (scan target m known dry items st))))
  /\ files_skipped (final_state (scan target m known dry items st))
     = length (List.filter is_skip_report
                 (trace (final_state (scan target m known dry items st)))).
Proof.
  revert st. induction items as [|name rest IH]; intros st Hst; [done|].
  pose proof (process_item_reports target m known dry name st Hst) as Hstep.
  simpl. destruct (process_item _ _ _ _ _ _) as [st'|e st']; simpl in Hstep.
  - by apply IH.
  - done.
Qed.

(** The index stays the pre-populated one. *)
Lemma process_item_index target m known dry name st :
  extension_to_category_cache st = prepopulate m ->
  extension_to_category_cache
    (final_state (process_item target m known dry name st)) = prepopulate m.
Proof.
  intros Hst. unfold process_item.
  destruct (is_skipped _ _ _); [done|].
  destruct (is_file _ _).
  - unfold organize_file. rewrite Hst.
    pose proof (get_category_keeps_prepopulated m
                  (lower (path_suffix (joinpath target name)))) as Hkeep.
    destruct (get_category_for_extension _ _ _) as [cat c'].
    simpl in Hkeep. subst c'. destruct dry.
    + unfold preview_file. by destruct (path_exists _ _).
    + unfold move_file. simpl.
      destruct (os_mkdir _ _) as [w1 [e|]].
      * by destruct (is_OSError e).
      * by destruct (os_move _ _ _) as [w2 [e|]].
  - by destruct (is_dir _ _).
Qed.

Lemma scan_index target m known dry items st :
  extension_to_category_cache st = prepopulate m ->
  extension_to_category_cache
    (final_state (scan target m known dry items st)) = prepopulate m.
Proof.
  revert st. induction items as [|name rest IH]; intros st Hst; [done|].
  pose proof (process_item_index target m known dry name st Hst) as Hstep.
  simpl. destruct (process_item _ _ _ _ _ _) as [st'|e st']; simpl in Hstep.
  - by apply IH.
  - done.
Qed.

Lemma report_index dry st :
  extension_to_category_cache (report dry st) = extension_to_category_cache st.
Proof. unfold report. by destruct (negb dry && _). Qed.

End MoreScan.

(** The summary adds no message that goes with a counter. *)
Lemma report_messages {World : Type} (dry : bool) (st : @State World) :
  List.filter is_move_report (trace (report dry st))
  = List.filter is_move_report (trace st)
  /\ List.filter is_skip_report (trace (report dry st))
     = List.filter is_skip_report (trace st).
Proof.
  unfold report. destruct (negb dry && _); simpl;
    rewrite !List.filter_app; simpl; by rewrite !app_nil_r.
Qed.

(** ** Further properties of a run *)

(** X2.  The index is fixed for the duration of a run: a lookup hands the
    pre-populated index back unchanged whatever extension it is asked for,
    and at the end of any run that got past the target check, dry or real,
    returned or raised, the index is still the pre-populated one. *)
Theorem index_is_fixed_during_a_run {World : Type} `{FileSystem World}
    (target : Path) (m : CategoryMap) (dry_run : bool) (w : World) :
  (forall extension,
      (get_category_for_extension extension m (prepopulate m)).2
      = prepopulate m)
  /\ (is_dir w target = true ->
      extension_to_category_cache
        (final_state (organize_files target m dry_run w)) = prepopulate m).
Proof.
  split; [apply get_category_keeps_prepopulated|].
  intros Hdir. unfold organize_files. rewrite Hdir. cbn [negb].
  match goal with |- context [scan _ _ ?k dry_run ?l ?s] =>
    pose proof (scan_index target m k dry_run l s eq_refl) as Hscan;
    destruct (scan target m k dry_run l s) as [st'|e st'] end;
    simpl in Hscan |- *; [|done].
  by rewrite report_index.
Qed.

Lemma index_is_fixed_witness :
  extension_to_category_cache
    (final_state (organize_files ["t"] two_categories false mixed_tree))
  = prepopulate two_categories.
Proof.
  apply (proj2 (index_is_fixed_during_a_run ["t"] two_categories false
                  mixed_tree)).
  reflexivity.
Defined.

(** X10.  An entry that is not a regular file when the loop reaches it (a
    sub-directory, or something that is neither file nor directory) is left
    alone in both modes: the file system, the counters and the index stay as
    they were and the trace gains at most one debug message. *)
Theorem entry_that_is_not_a_file_is_left_alone {World : Type}
    `{FileSystem World} (target : Path) (m : CategoryMap)
    (known : gset string) (dry_run : bool) (name : string)
    (st : @State World) :
  is_file (fs st) (joinpath target name) = false ->
  exists tr,
    process_item target m known dry_run name st
    = Returns (mkState (fs st) (trace st ++ tr) (files_moved st)
                 (files_skipped st) (extension_to_category_cache st))
    /\ (tr = [] \/ exists msg, tr = [Log DEBUG msg]).
Proof.
  intros Hfile. apply process_item_ineligible.
  unfold is_eligible. rewrite Hfile. apply andb_false_r.
Qed.

Lemma entry_that_is_not_a_file_witness :
  exists tr,
    process_item ["t"] two_categories (known_category_folders two_categories)
      false "archive" (init_state mixed_tree)
    = Returns (mkState (fs (init_state mixed_tree))
                 (trace (init_state mixed_tree) ++ tr)
                 (files_moved (init_state mixed_tree))
                 (files_skipped (init_state mixed_tree))
                 (extension_to_category_cache (init_state mixed_tree)))
    /\ (tr = [] \/ exists msg, tr = [Log DEBUG msg]).
Proof.
  apply (entry_that_is_not_a_file_is_left_alone ["t"] two_categories
           (known_category_folders two_categories) false "archive"
           (init_state mixed_tree)).
  reflexivity.
Defined.

(** X11.  A dry run counts as moved exactly the entries of the target that
    are regular files and are not skipped by the protection test. *)
Theorem dry_run_counts_eligible_files {World : Type} `{FileSystem World}
    (target : Path) (m : CategoryMap) (w : World) :
  is_dir w target = true ->
  files_moved (final_state (organize_files target m true w))
  = length (List.filter (is_eligible (known_category_folders m) w target)
              (iterdir w target)).
Proof.
  intros Hdir. unfold organize_files. rewrite Hdir. cbn [negb].
  match goal with |- context [scan _ _ ?k true ?l ?s] =>
    destruct (scan_dry_count target m k l s) as (st' & -> & Hfs & Hmv) end.
  simpl in Hfs, Hmv. cbn [final_state].
  destruct (report_state true st') as (_ & -> & _). by rewrite Hmv.
Qed.

Lemma dry_run_counts_witness :
  files_moved (final_state (organize_files ["t"] two_categories true mixed_tree))
  = length (List.filter
              (is_eligible (known_category_folders two_categories) mixed_tree
                 ["t"])
              (iterdir mixed_tree ["t"])).
Proof.
  apply (dry_run_counts_eligible_files ["t"] two_categories mixed_tree).
  reflexivity.
Defined.

(** X12.  When no entry of the target is an unprotected regular file, a
    run, dry or real, changes nothing: it returns with the file system it
    started on, both counters at zero, and no [mkdir] or [move] call. *)
Theorem nothing_eligible_nothing_done {World : Type} `{FileSystem World}
    (target : Path) (m : CategoryMap) (dry_run : bool) (w : World) :
  (forall name, name ∈ iterdir w target ->
                is_eligible (known_category_folders m) w target name = false) ->
  exists st,
    organize_files target m dry_run w = Returns st
    /\ fs st = w
    /\ files_moved st = 0
    /\ files_skipped st = 0
    /\ Forall (fun ev => is_mutation ev = false) (trace st).
Proof.
  intros Hnone. unfold organize_files.
  destruct (is_dir w target); cbn [negb].
  - match goal with |- context [scan _ _ ?k dry_run ?l ?s] =>
      destruct (scan_nothing_eligible target m k dry_run l s Hnone)
        as (tr & -> & Hq) end.
    eexists. split; [done|].
    match goal with |- context [report dry_run ?s] =>
      destruct (report_state dry_run s) as (-> & -> & ->);
      destruct (report_trace dry_run s) as (tr' & -> & Hq' & _) end.
    cbn [fs trace files_moved files_skipped log emit set_cache init_state].
    repeat split.
    rewrite !Forall_app. repeat split; try done; by repeat constructor.
  - eexists. split; [done|]. simpl. repeat split. by repeat constructor.
Qed.

Lemma protected_tree_has_nothing_eligible name :
  name ∈ iterdir protected_tree ["t"] ->
  is_eligible (known_category_folders images_only) protected_tree ["t"] name
  = false.
Proof.
  assert (iterdir protected_tree ["t"] = ["Images"; "organizer.py"]
          \/ iterdir protected_tree ["t"] = ["organizer.py"; "Images"]) as Hls.
  { vm_compute. auto. }
  intros Hin.
  assert (name = "Images" \/ name = "organizer.py") as [->| ->].
  { destruct Hls as [Hls|Hls]; rewrite Hls in Hin;
      rewrite !elem_of_cons, elem_of_nil in Hin; tauto. }
  - vm_compute. reflexivity.
  - vm_compute. reflexivity.
Qed.

Lemma nothing_eligible_witness :
  exists st,
    organize_files ["t"] images_only false protected_tree = Returns st
    /\ fs st = protected_tree
    /\ files_moved st = 0
    /\ files_skipped st = 0
    /\ Forall (fun ev => is_mutation ev = false) (trace st).
Proof.
  apply (nothing_eligible_nothing_done ["t"] images_only false protected_tree
           protected_tree_has_nothing_eligible).
Defined.

(** X13.  In every run, however it ends, the moved and skipped counts
    together never exceed the number of entries listed in the target. *)
Theorem counters_bounded_by_listing {World : Type} `{FileSystem World}
    (target : Path) (m : CategoryMap) (dry_run : bool) (w : World) :
  files_moved (final_state (organize_files target m dry_run w))
  + files_skipped (final_state (organize_files target m dry_run w))
  <= length (iterdir w target).
Proof.
  unfold organize_files. destruct (is_dir w target); cbn [negb]; [|simpl; lia].
  match goal with |- context [scan _ _ ?k dry_run ?l ?s] =>
    pose proof (scan_bound target m k dry_run l s) as Hscan;
    destruct (scan target m k dry_run l s) as [st'|e st'] end;
    simpl in Hscan; cbn [final_state]; [|lia].
  destruct (report_state dry_run st') as (_ & -> & ->). lia.
Qed.

(** X14.  In every run the moved count is the number of "moved" and "would
    move" messages logged, and the skipped count is the number of error
    messages about a folder that could not be created or a file that could
    not be moved. *)
Theorem counters_match_messages {World : Type} `{FileSystem World}
    (target : Path) (m : CategoryMap) (dry_run : bool) (w : World) :
  files_moved (final_state (organize_files target m dry_run w))
  = length (List.filter is_move_report
              (trace (final_state (organize_files target m dry_run w))))
  /\ files_skipped (final_state (organize_files target m dry_run w))
     = length (List.filter is_skip_report
                 (trace (final_state (organize_files target m dry_run w)))).
Proof.
  unfold organize_files. destruct (is_dir w target); cbn [negb]; [|done].
  match goal with |- context [scan _ _ ?k dry_run ?l ?s] =>
    pose proof (scan_reports target m k dry_run l s (conj eq_refl eq_refl))
      as [Hmv Hsk];
    destruct (scan target m k dry_run l s) as [st'|e st'] end;
    simpl in Hmv, Hsk; cbn [final_state]; [|done].
  destruct (report_state dry_run st') as (_ & -> & ->).
  destruct (report_messages dry_run st') as [-> ->]. done.
Qed.

(** X15.  A real run never moves a file onto an existing path.  For a
    regular file that is not skipped and whose folder could be created, the
    trace gains the [mkdir] call, one [move] call and one message; the
    destination of that move lies in the category folder and does not exist
    on the file system that [mkdir] left behind. *)
Theorem move_never_overwrites {World : Type} `{FileSystem World}
    (target : Path) (m : CategoryMap) (known : gset string) (name : string)
    (st : @State World) (w1 : World) :
  is_skipped known (fs st) (joinpath target name) = false ->
  is_file (fs st) (joinpath target name) = true ->
  os_mkdir (fs st) (destination_folder target m st name) = (w1, None) ->
  exists dst l msg,
    trace (final_state (process_item target m known false name st))
    = trace st
      ++ [CallMkdir (destination_folder target m st name);
          CallMove (joinpath target name) dst; Log l msg]
    /\ path_exists w1 dst = false
    /\ path_parent dst = destination_folder target m st name.
Proof.
  intros Hskip Hfile Hmk.
  rewrite (process_item_file target m known false name st Hskip Hfile).
  cbv zeta. fold (destination_folder target m st name).
  set (folder := destination_folder target m st name) in *.
  exists (handle_collision w1 (joinpath folder name)).
  destruct (os_move w1 (joinpath target name)
              (handle_collision w1 (joinpath folder name)))
    as [w2 [e|]] eqn:Hmv.
  - rewrite (move_file_move_fails _ _ _ _ w1 w2 e) by (exact Hmk || exact Hmv).
    eexists _, _. simpl. rewrite <- !app_assoc.
    split; [done|]. split; [apply handle_collision_free|].
    by rewrite handle_collision_parent, path_parent_joinpath.
  - rewrite (move_file_moves _ _ _ _ w1 w2) by (exact Hmk || exact Hmv).
    eexists _, _. simpl. rewrite <- !app_assoc.
    split; [done|]. split; [apply handle_collision_free|].
    by rewrite handle_collision_parent, path_parent_joinpath.
Qed.

Lemma images_file_not_skipped :
  is_skipped (known_category_folders images_only)
    (fs (init_state images_file_tree)) (joinpath ["t"] "Images") = false.
Proof. vm_compute. reflexivity. Qed.

Lemma move_never_overwrites_witness :
  exists dst l msg,
    trace (final_state
             (process_item ["t"] images_only
                (known_category_folders images_only) false "Images"
                (init_state images_file_tree)))
    = trace (init_state images_file_tree)
      ++ [CallMkdir
            (destination_folder ["t"] images_only
               (init_state images_file_tree) "Images");
          CallMove (joinpath ["t"] "Images") dst; Log l msg]
    /\ path_exists images_file_tree_with_folder dst = false
    /\ path_parent dst
       = destination_folder ["t"] images_only (init_state images_file_tree)
           "Images".
Proof.
  apply (move_never_overwrites ["t"] images_only
           (known_category_folders images_only) "Images"
           (init_state images_file_tree) images_file_tree_with_folder
           images_file_not_skipped (proj1 images_file_is_regular)
           images_file_mkdir).
Defined.

(** X16.  A dry run announces, for every regular file that is not skipped,
    the name that collision resolution picks on the current file system: the
    trace gains one message, counted as a move, whose target name is the
    name of a path in the category folder that does not exist. *)
Theorem dry_run_announces_collision_free_name {World : Type}
    `{FileSystem World} (target : Path) (m : CategoryMap)
    (known : gset string) (name : string) (st : @State World) :
  is_skipped known (fs st) (joinpath target name) = false ->
  is_file (fs st) (joinpath target name) = true ->
  exists st' ev,
    process_item target m known true name st = Returns st'
    /\ trace st' = trace st ++ [ev]
    /\ is_move_report ev = true
    /\ announced_name ev
       = Some (path_name
                 (handle_collision (fs st)
                    (joinpath (destination_folder target m st name) name)))
    /\ path_exists (fs st)
         (handle_collision (fs st)
            (joinpath (destination_folder target m st name) name)) = false
    /\ path_parent
         (handle_collision (fs st)
            (joinpath (destination_folder target m st name) name))
       = destination_folder target m st name.
Proof.
  intros Hskip Hfile.
  rewrite (process_item_file target m known true name st Hskip Hfile).
  cbv zeta. fold (destination_folder target m st name).
  set (folder := destination_folder target m st name) in *.
  unfold preview_file. cbn [fs set_cache].
  destruct (path_exists (fs st) (joinpath folder name)) eqn:Hex.
  - eexists _, _. split; [done|]. simpl.
    split; [done|]. split; [done|]. split; [done|].
    split; [apply handle_collision_free|].
    by rewrite handle_collision_parent, path_parent_joinpath.
  - eexists _, _. split; [done|]. simpl.
    destruct (handle_collision_cases (fs st) (joinpath folder name))
      as [[_ Hfix]|[Hex' _]]; [|congruence].
    rewrite Hfix, !path_name_joinpath, path_parent_joinpath. done.
Qed.

Lemma collision_tree_image_eligible :
  is_skipped (known_category_folders images_only)
    (fs (init_state collision_tree)) (joinpath ["t"] "image.png") = false
  /\ is_file (fs (init_state collision_tree)) (joinpath ["t"] "image.png")
     = true.
Proof. split; vm_compute; reflexivity. Qed.

Lemma dry_run_announces_witness :
  exists st' ev,
    process_item ["t"] images_only (known_category_folders images_only) true
      "image.png" (init_state collision_tree) = Returns st'
    /\ trace st' = trace (init_state collision_tree) ++ [ev]
    /\ is_move_report ev = true
    /\ announced_name ev
       = Some (path_name
                 (handle_collision (fs (init_state collision_tree))
                    (joinpath
                       (destination_folder ["t"] images_only
                          (init_state collision_tree) "image.png")
                       "image.png")))
    /\ path_exists (fs (init_state collision_tree))
         (handle_collision (fs (init_state collision_tree))
            (joinpath
               (destination_folder ["t"] images_only
                  (init_state collision_tree) "image.png")
               "image.png")) = false
    /\ path_parent
         (handle_collision (fs (init_state collision_tree))
            (joinpath
               (destination_folder ["t"] images_only
                  (init_state collision_tree) "image.png")
               "image.png"))
       = destination_folder ["t"] images_only (init_state collision_tree)
           "image.png".
Proof.
  apply (dry_run_announces_collision_free_name ["t"] images_only
           (known_category_folders images_only) "image.png"
           (init_state collision_tree)
           (proj1 collision_tree_image_eligible)
           (proj2 collision_tree_image_eligible)).
Defined.

(** X17.  An exception of [mkdir] that is not an [OSError] is not caught
    by line 147: the body of the loop raises it, after the [mkdir] call and
    with the counters as they were, the scan stops there without looking at
    the entries that follow, and the exception leaves the scan. *)
Theorem mkdir_exception_other_than_OSError_propagates {World : Type}
    `{FileSystem World} (target : Path) (m : CategoryMap)
    (known : gset string) (name : string) (rest : list string)
    (st : @State World) (w1 : World) (e : exn) :
  is_skipped known (fs st) (joinpath target name) = false ->
  is_file (fs st) (joinpath target name) = true ->
  os_mkdir (fs st) (destination_folder target m st name) = (w1, Some e) ->
  is_OSError e = false ->
  exists st',
    process_item target m known false name st = Raises e st'
    /\ scan target m known false (name :: rest) st = Raises e st'
    /\ fs st' = w1
    /\ files_moved st' = files_moved st
    /\ files_skipped st' = files_skipped st
    /\ trace st'
       = trace st ++ [CallMkdir (destination_folder target m st name)].
Proof.
  intros Hskip Hfile Hmk He.
  pose proof (process_item_file target m known false name st Hskip Hfile)
    as Hstep.
  cbv zeta in Hstep. fold (destination_folder target m st name) in Hstep.
  unfold move_file in Hstep. cbn [fs set_cache] in Hstep.
  rewrite Hmk, He in Hstep.
  eexists. split; [exact Hstep|]. split; [|done].
  simpl. by rewrite Hstep.
Qed.

Lemma nul_category_mkdir_raises :
  @is_skipped _ Checked.checked_fs (known_category_folders nul_category)
    (fs (init_state notes_tree)) (joinpath ["t"] "notes.txt") = false
  /\ @is_file _ Checked.checked_fs (fs (init_state notes_tree))
       (joinpath ["t"] "notes.txt") = true
  /\ @os_mkdir _ Checked.checked_fs (fs (init_state notes_tree))
       (destination_folder ["t"] nul_category (init_state notes_tree)
          "notes.txt")
     = (notes_tree, Some OtherException).
Proof. repeat split; vm_compute; reflexivity. Qed.

Lemma mkdir_exception_witness :
  exists st',
    @process_item _ Checked.checked_fs ["t"] nul_category
      (known_category_folders nul_category) false "notes.txt"
      (init_state notes_tree) = Raises OtherException st'
    /\ @scan _ Checked.checked_fs ["t"] nul_category
         (known_category_folders nul_category) false
         ("notes.txt" :: ["other.txt"]) (init_state notes_tree)
       = Raises OtherException st'
    /\ fs st' = notes_tree
    /\ files_moved st' = files_moved (init_state notes_tree)
    /\ files_skipped st' = files_skipped (init_state notes_tree)
    /\ trace st'
       = trace (init_state notes_tree)
         ++ [CallMkdir
               (destination_folder ["t"] nul_category (init_state notes_tree)
                  "notes.txt")].
Proof.
  apply (@mkdir_exception_other_than_OSError_propagates _ Checked.checked_fs
           ["t"] nul_category (known_category_folders nul_category)
           "notes.txt" ["other.txt"] (init_state notes_tree) notes_tree
           OtherException
           (proj1 nul_category_mkdir_raises)
           (proj1 (proj2 nul_category_mkdir_raises))
           (proj2 (proj2 nul_category_mkdir_raises))
           eq_refl).
Defined.
